(** * termgame: the per-tick simulation core

    A shallow embedding of [termgame.py] and [gameobject.py]: the layered
    collision map, the move/collision resolution phase, the frame pacing
    test and the grid path search, followed by the properties established
    about them. *)

From Stdlib Require Import ZArith List Bool Lia QArith.
From stdpp Require Import gmap.
Import ListNotations.

(** Python object identity.  Game objects are mutable and shared between the
    registry, the collision map and the request queue, so they live in a
    store indexed by reference. *)
Definition ref : Type := nat.

(** A screen position [(y, x)]. *)
Definition pos : Type := (Z * Z)%type.

(** ** gameobject.py *)
Module GameObject.

(** [@dataclass class Collision]. *)
Record Collision : Type := mkCollision {
  collider : bool;
  rigidbody : bool;
  layer : Z;
  mass : Z;
  fixed : bool
}.

(** [Collision()] with the dataclass defaults. *)
Definition Collision_default : Collision := mkCollision false false 0 1 false.

(** The attributes of [GameObject] that the core reads or writes.
    [position] is a tuple or [None]. *)
Record GameObject : Type := mkGameObject {
  id : Z;
  position : option pos;
  collision : Collision
}.

(** A freshly constructed object: [position = None], [collision = Collision()]. *)
Definition init (i : Z) : GameObject := mkGameObject i None Collision_default.

Definition set_position (p : option pos) (o : GameObject) : GameObject :=
  mkGameObject (id o) p (collision o).

End GameObject.

(** The object store. *)
Definition heap : Type := ref -> GameObject.GameObject.

Definition heap_set_position (h : heap) (o : ref) (p : option pos) : heap :=
  fun r => if decide (r = o) then GameObject.set_position p (h r) else h r.

(** ** Insertion-ordered dictionaries

    A Python [dict] iterates in insertion order, and the collision map and
    the collision report are both iterated, so they are association lists
    whose keys are kept unique by the operations below. *)
Section Dict.
Context {K V : Type} `{EqDecision K}.

Fixpoint dget (k : K) (d : list (K * V)) : option V :=
  match d with
  | [] => None
  | (k', v) :: r => if decide (k = k') then Some v else dget k r
  end.

(** [d[k] = f (d[k])] on a [defaultdict] whose factory gives [dflt]: an
    existing key keeps its place, a missing key is added at the end. *)
Fixpoint dupd (k : K) (dflt : V) (f : V -> V) (d : list (K * V)) : list (K * V) :=
  match d with
  | [] => [(k, f dflt)]
  | (k', v) :: r =>
      if decide (k = k') then (k', f v) :: r else (k', v) :: dupd k dflt f r
  end.

(** [d[k]] read through the default without looking at the side effect. *)
Definition dfind (k : K) (dflt : V) (d : list (K * V)) : V :=
  match dget k d with Some v => v | None => dflt end.

Definition keys (d : list (K * V)) : list K := List.map fst d.

(** The sum of a measure over the entries. *)
Definition msum (g : K -> V -> nat) (d : list (K * V)) : nat :=
  list_sum (List.map (fun kv => g (fst kv) (snd kv)) d).
End Dict.

(** ** TermGame.CollisionMap *)
Module CollisionMap.

(** The [Collision] named tuple with fields [layer], [position], [colliders]. *)
Record Collision : Type := mkCollision {
  layer : Z;
  position : option pos;
  colliders : list ref
}.

#[global] Instance Collision_eq_dec : EqDecision Collision.
Proof. solve_decision. Defined.

(** [self.map = defaultdict(lambda: defaultdict(list))]. *)
Definition t : Type := list (Z * list (option pos * list ref)).

(** [self.map[layer][position]] modified in place by [f]. *)
Definition at_bucket (f : list ref -> list ref)
    (layer : Z) (position : option pos) (m : t) : t :=
  dupd layer [] (dupd position [] f) m.

(** The bucket stored under [(layer, position)], empty when there is none. *)
Definition bucket (m : t) (layer : Z) (position : option pos) : list ref :=
  dfind position [] (dfind layer [] m).

(** [list.remove]: drops the first occurrence. *)
Fixpoint list_remove (o : ref) (l : list ref) : list ref :=
  match l with
  | [] => []
  | x :: r => if decide (o = x) then r else x :: list_remove o r
  end.

Definition add_obj (m : t) (layer : Z) (position : option pos) (game_obj : ref) : t :=
  at_bucket (fun l => l ++ [game_obj]) layer position m.

Definition remove_obj (m : t) (layer : Z) (position : option pos) (game_obj : ref) : t :=
  at_bucket (fun l => if in_dec Nat.eq_dec game_obj l then list_remove game_obj l else l)
            layer position m.

(** [__iter__]: every [(layer, position, game_obj_list)] in dictionary order. *)
Definition iter (m : t) : list (Z * option pos * list ref) :=
  flat_map (fun li => List.map (fun pb => (fst li, fst pb, snd pb)) (snd li)) m.

(** [__detect_collisions]. *)
Definition detect_collisions (m : t) : list Collision :=
  flat_map (fun e => let '(layer, position, game_objs) := e in
                     if (1 <? length game_objs)%nat
                     then [mkCollision layer position game_objs] else [])
           (iter m).

(** Python truthiness of the [layer] argument: [None] and [0] are falsy. *)
Definition layer_truthy (l : option Z) : bool :=
  match l with None => false | Some z => negb (z =? 0)%Z end.

(** Python truthiness of the [position] argument: a two-element tuple is
    truthy, [None] is falsy. *)
Definition position_truthy (p : option pos) : bool :=
  match p with None => false | Some _ => true end.

(** The [for collision in collisions] loop of [get_rb_collisions].  The
    accumulator [rigidbody_collisions] is filled when [single] is false,
    but the function has no [return] for it: falling off the end of the
    loop returns [None]. *)
Fixpoint rb_scan (h : heap) (specific_layer : option Z) (specific_position : option pos)
    (single : bool) (collisions : list Collision) (rigidbody_collisions : list Collision)
    : option Collision :=
  match collisions with
  | [] => None
  | collision :: rest =>
      if layer_truthy specific_layer
         && negb (bool_decide (Some (layer collision) = specific_layer))
      then rb_scan h specific_layer specific_position single rest rigidbody_collisions
      else if position_truthy specific_position
              && negb (bool_decide (position collision = specific_position))
      then rb_scan h specific_layer specific_position single rest rigidbody_collisions
      else
        let rigidbody_colliders :=
          List.filter (fun game_obj => GameObject.rigidbody (GameObject.collision (h game_obj)))
                      (colliders collision) in
        if (1 <? length rigidbody_colliders)%nat then
          let rb_collision :=
            mkCollision (layer collision) (position collision) rigidbody_colliders in
          if single then Some rb_collision
          else rb_scan h specific_layer specific_position single rest
                       (rigidbody_collisions ++ [rb_collision])
        else rb_scan h specific_layer specific_position single rest rigidbody_collisions
  end.

(** [get_rb_collisions(layer=None, position=None, single=False)]; the
    result is a [Collision] or [None]. *)
Definition get_rb_collisions (h : heap) (m : t)
    (layer : option Z) (position : option pos) (single : bool) : option Collision :=
  rb_scan h layer position single (detect_collisions m) [].

(** *** Notions used to state the properties *)

(** A dictionary has one entry per key, at both levels. *)
Definition wf (m : t) : bool :=
  bool_decide (NoDup (keys m))
  && forallb (fun li => bool_decide (NoDup (keys (snd li)))) m.

(** The occupants of a bucket whose recorded position is not the
    bucket's position. *)
Definition displaced (h : heap) (position : option pos) (l : list ref) : nat :=
  length (List.filter
            (fun o => negb (bool_decide (GameObject.position (h o) = position))) l).

(** The number of displaced occupants over the whole map. *)
Definition misplaced (h : heap) (m : t) : nat :=
  msum (fun (_ : Z) inner => msum (displaced h) inner) m.

(** Every occupant sits in the bucket of its own layer and recorded
    position, and no bucket lists an object twice. *)
Definition consistent (h : heap) (m : t) : bool :=
  forallb
    (fun e =>
       let '(layer, position, l) := e in
       bool_decide (NoDup l)
       && forallb (fun o =>
                     bool_decide (GameObject.layer (GameObject.collision (h o)) = layer)
                     && bool_decide (GameObject.position (h o) = position)) l)
    (iter m).

(** Every occupant is on its own layer, no bucket lists an object twice,
    and no object is listed under two positions. *)
Definition tidy (h : heap) (m : t) : Prop :=
  (forall o L P, In o (bucket m L P) -> L = GameObject.layer (GameObject.collision (h o)))
  /\ (forall L P, List.NoDup (bucket m L P))
  /\ (forall o L P L' P', In o (bucket m L P) -> In o (bucket m L' P') -> P = P').

(** The object is listed in some bucket. *)
Definition indexed (m : t) (o : ref) : Prop :=
  exists layer position, In o (bucket m layer position).

End CollisionMap.

(** ** TermGame *)
Module TermGame.

(** The fields of [TermGame] used by the tick pipeline.  [objects] is the
    store of the game objects that the other fields refer to. *)
Record TermGame : Type := mkTermGame {
  max_y : Z;
  max_x : Z;
  objects : heap;
  collision_map : CollisionMap.t;
  now : Z;
  last_frame_time : option Z;
  frame_delay : Q;
  active_objects : list (Z * ref);
  move_requests : list (ref * option pos)
}.

Definition set_objects (h : heap) (g : TermGame) : TermGame :=
  mkTermGame (max_y g) (max_x g) h (collision_map g) (now g) (last_frame_time g)
             (frame_delay g) (active_objects g) (move_requests g).

Definition set_collision_map (m : CollisionMap.t) (g : TermGame) : TermGame :=
  mkTermGame (max_y g) (max_x g) (objects g) m (now g) (last_frame_time g)
             (frame_delay g) (active_objects g) (move_requests g).

Definition set_now (t : Z) (g : TermGame) : TermGame :=
  mkTermGame (max_y g) (max_x g) (objects g) (collision_map g) t (last_frame_time g)
             (frame_delay g) (active_objects g) (move_requests g).

Definition set_move_requests (q : list (ref * option pos)) (g : TermGame) : TermGame :=
  mkTermGame (max_y g) (max_x g) (objects g) (collision_map g) (now g) (last_frame_time g)
             (frame_delay g) (active_objects g) q.

(** *** Relocation requests *)

(** [move]: [self.move_requests.append((game_obj, position))]. *)
Definition move (g : TermGame) (game_obj : ref) (position : option pos) : TermGame :=
  set_move_requests (move_requests g ++ [(game_obj, position)]) g.

(** [list.pop()]: the last element and the list without it. *)
Definition pop {A : Type} (l : list A) : option (list A * A) :=
  match rev l with
  | [] => None
  | x :: r => Some (rev r, x)
  end.

(** The body of the drain loop for one popped request. *)
Definition apply_request (h : heap) (m : CollisionMap.t) (rq : ref * option pos)
    : CollisionMap.t :=
  let '(game_obj, position) := rq in
  let layer := GameObject.layer (GameObject.collision (h game_obj)) in
  CollisionMap.add_obj
    (CollisionMap.remove_obj m layer (GameObject.position (h game_obj)) game_obj)
    layer position game_obj.

(** [while self.move_requests: ... self.move_requests.pop() ...]. *)
Fixpoint drain (fuel : nat) (g : TermGame) : option TermGame :=
  match pop (move_requests g) with
  | None => Some g
  | Some (rest, rq) =>
      match fuel with
      | O => None
      | S fuel' =>
          drain fuel'
            (set_collision_map (apply_request (objects g) (collision_map g) rq)
               (set_move_requests rest g))
      end
  end.

(** *** Rigidbody resolution *)

(** [rigidbody_collisions = defaultdict(list)], keyed by object id. *)
Definition report : Type := list (Z * list ref).

(** First [for collider in collision.colliders] loop: every collider's
    entry is extended with the other colliders. *)
Definition record_peers (h : heap) (collision : CollisionMap.Collision) (r : report)
    : report :=
  fold_left
    (fun r collider =>
       let other_colliders :=
         CollisionMap.list_remove collider (CollisionMap.colliders collision) in
       dupd (GameObject.id (h collider)) [] (fun l => l ++ other_colliders) r)
    (CollisionMap.colliders collision) r.

(** Second [for collider in collision.colliders] loop: the first collider
    whose recorded position differs from the collision's position is put
    back in the bucket of its recorded position; the flag is [resolved]. *)
Fixpoint revert_first (h : heap) (m : CollisionMap.t)
    (collision : CollisionMap.Collision) (cs : list ref) : CollisionMap.t * bool :=
  match cs with
  | [] => (m, false)
  | collider :: rest =>
      if decide (GameObject.position (h collider) = CollisionMap.position collision)
      then revert_first h m collision rest
      else (CollisionMap.add_obj
              (CollisionMap.remove_obj m (CollisionMap.layer collision)
                 (CollisionMap.position collision) collider)
              (CollisionMap.layer collision) (GameObject.position (h collider)) collider,
            true)
  end.

(** What the resolution loop leaves behind. *)
Record resolved : Type := mkResolved {
  res_map : CollisionMap.t;
  res_unresolvable : list CollisionMap.Collision;
  res_report : report;
  res_attempts : nat
}.

(** One pass through the body of [while collision:], up to the refetch:
    the peers are recorded, the first movable collider is put back, and a
    collision nobody could leave is appended to [unresolvable]. *)
Definition attempt (h : heap) (m : CollisionMap.t) (c : CollisionMap.Collision)
    (unresolvable : list CollisionMap.Collision) (r : report)
    : CollisionMap.t * list CollisionMap.Collision * report :=
  let r' := record_peers h c r in
  let '(m', was_resolved) := revert_first h m c (CollisionMap.colliders c) in
  (m', (if was_resolved then unresolvable else unresolvable ++ [c]), r').

(** The end of the body: the next collision is fetched and dropped when it
    is [in unresolvable]. *)
Definition refetch (h : heap) (m : CollisionMap.t)
    (unresolvable : list CollisionMap.Collision) : option CollisionMap.Collision :=
  match CollisionMap.get_rb_collisions h m None None true with
  | Some c' =>
      if in_dec CollisionMap.Collision_eq_dec c' unresolvable then None else Some c'
  | None => None
  end.

(** The state in which the loop test finds [collision]: it is the
    collision just fetched, or it was dropped for being [in unresolvable]. *)
Definition at_loop_test (h : heap) (m : CollisionMap.t)
    (unresolvable : list CollisionMap.Collision)
    (collision : option CollisionMap.Collision) : Prop :=
  collision = CollisionMap.get_rb_collisions h m None None true
  \/ (collision = None
      /\ exists c', CollisionMap.get_rb_collisions h m None None true = Some c'
                    /\ In c' unresolvable).

(** [while collision: ...]; [attempts] counts the iterations performed. *)
Fixpoint resolve (fuel : nat) (h : heap) (m : CollisionMap.t)
    (collision : option CollisionMap.Collision)
    (unresolvable : list CollisionMap.Collision) (r : report) (attempts : nat)
    : option resolved :=
  match collision with
  | None => Some (mkResolved m unresolvable r attempts)
  | Some c =>
      match fuel with
      | O => None
      | S fuel' =>
          let '(m', unresolvable', r') := attempt h m c unresolvable r in
          resolve fuel' h m' (refetch h m' unresolvable') unresolvable' r' (S attempts)
      end
  end.

(** [for layer, position, game_obj_list in self.collision_map: ...]:
    every listed object gets the position of its bucket. *)
Definition reconcile (h : heap) (m : CollisionMap.t) : heap :=
  fold_left
    (fun h e => fold_left (fun h game_obj => heap_set_position h game_obj (snd (fst e)))
                          (snd e) h)
    (CollisionMap.iter m) h.

(** The final loop: one [on_rigidbody_collision(colliders)] call for every
    reported id that [active_objects.get] still finds. *)
Definition notify (active : list (Z * ref)) (r : report) : list (ref * list ref) :=
  flat_map (fun e => match dget (fst e) active with
                     | Some game_obj => [(game_obj, snd e)]
                     | None => []
                     end) r.

(** [__move_objects]; the second component lists the notifications sent. *)
Definition move_objects (fuel : nat) (g : TermGame)
    : option (TermGame * list (ref * list ref)) :=
  match move_requests g with
  | [] => Some (g, [])
  | _ :: _ =>
      match drain fuel g with
      | None => None
      | Some g1 =>
          let h := objects g1 in
          match resolve fuel h (collision_map g1)
                  (CollisionMap.get_rb_collisions h (collision_map g1) None None true)
                  [] [] 0 with
          | None => None
          | Some res =>
              Some (set_objects (reconcile h (res_map res))
                      (set_collision_map (res_map res) g1),
                    notify (active_objects g1) (res_report res))
          end
      end
  end.

(** *** Frame pacing *)

(** [get_time_delta]: nanoseconds to seconds. *)
Definition get_time_delta (g : TermGame) (then_ : Z) : Q :=
  Qmake (now g - then_) 1000000000.

(** [__ready_for_next_frame]; falling off the end returns [None], which
    the caller tests as false.  [not self.last_frame_time] holds for
    [None] and for [0]. *)
Definition ready_for_next_frame (g : TermGame) : bool :=
  match last_frame_time g with
  | None => true
  | Some then_ =>
      if (then_ =? 0)%Z then true
      else if negb (Qle_bool (get_time_delta g then_) (frame_delay g)) then true
      else false
  end.

(** The part of [__draw_game_objects] that rebuilds the collision map
    from the active objects that are colliders. *)
Definition draw_game_objects (g : TermGame) : TermGame :=
  set_collision_map
    (fold_left
       (fun m e =>
          let o := objects g (snd e) in
          if GameObject.collider (GameObject.collision o)
          then CollisionMap.add_obj m (GameObject.layer (GameObject.collision o))
                                    (GameObject.position o) (snd e)
          else m)
       (active_objects g) [])
    g.

(** What one pass of the loop did, in order. *)
Inductive phase : Type :=
| HandleInput
| UpdateObjects
| MoveObjects
| DrawFrame (at_time : Z).

(** [__draw_frame]. *)
Definition draw_frame (g : TermGame) : TermGame * list phase :=
  if ready_for_next_frame g then (draw_game_objects g, [DrawFrame (now g)])
  else (g, []).

(** [__loop] for a pass in which no key is pressed, so that
    [__handle_input] does nothing, and in which the objects' [update]
    calls do nothing but request moves; the clock reading and those
    requests are given from outside. *)
Definition loop (fuel : nat) (time_ns : Z) (requested : list (ref * option pos))
    (g : TermGame) : option (TermGame * list phase) :=
  let g1 := set_now time_ns g in
  let g2 := fold_left (fun g rq => move g (fst rq) (snd rq)) requested g1 in
  match move_objects fuel g2 with
  | None => None
  | Some (g3, _) =>
      let '(g4, drawn) := draw_frame g3 in
      Some (g4, [HandleInput; UpdateObjects; MoveObjects] ++ drawn)
  end.

(** [while True: self.__loop()] over the given clock readings. *)
Fixpoint run (fuel : nat) (ticks : list (Z * list (ref * option pos))) (g : TermGame)
    : option (TermGame * list phase) :=
  match ticks with
  | [] => Some (g, [])
  | (time_ns, requested) :: rest =>
      match loop fuel time_ns requested g with
      | None => None
      | Some (g', ph) =>
          match run fuel rest g' with
          | None => None
          | Some (g'', ph') => Some (g'', ph ++ ph')
          end
      end
  end.

(** *** Path search *)

(** What a Python call ends in: a value or a raised exception. *)
Inductive exn : Type := KeyError | TypeError.
Inductive result (A : Type) : Type :=
| Ok (a : A)
| Raise (e : exn).
Arguments Ok {A} a.
Arguments Raise {A} e.

(** The inner function [get_neighbors]. *)
Definition get_neighbors (position : pos) (max_y max_x : Z) : list pos :=
  let '(y, x) := position in
  List.filter
    (fun neighbor =>
       if ((fst neighbor <? 0) || (max_y <? fst neighbor))%Z then false
       else if ((snd neighbor <? 0) || (max_x <? snd neighbor))%Z then false
       else true)
    [(y + 1, x); (y - 1, x); (y, x + 1); (y, x - 1)]%Z.

(** Tuple comparison [a <= b]. *)
Definition pos_le (a b : pos) : bool :=
  ((fst a <? fst b) || ((fst a =? fst b) && (snd a <=? snd b)))%Z.

(** [queue.PriorityQueue]: [get] retrieves the lowest valued entry.  The
    entries are the bare positions; the second argument of
    [put(item, block)] is the blocking flag, which an unbounded queue
    never consults.  The queue is kept as a sorted list. *)
Fixpoint put (item : pos) (block : Z) (q : list pos) : list pos :=
  match q with
  | [] => [item]
  | x :: r => if pos_le item x then item :: q else x :: put item block r
  end.

Definition get (q : list pos) : option (pos * list pos) :=
  match q with
  | [] => None
  | x :: r => Some (x, r)
  end.

(** The local variables of [pathfind] that the search loop updates. *)
Record search : Type := mkSearch {
  frontier : list pos;
  came_from : gmap pos (option pos);
  cost_so_far : gmap pos nat
}.

Definition Zabs_diff (a b : Z) : Z := Z.abs (a - b).

(** The body of [for neighbor in get_neighbors(...)]. *)
Definition visit (start target current : pos) (st : search) (neighbor : pos)
    : result search :=
  match cost_so_far st !! current with
  | None => Raise KeyError
  | Some c =>
      let new_cost := (c + 1)%nat in
      if match cost_so_far st !! neighbor with
         | None => true
         | Some old => (new_cost <? old)%nat
         end
      then
        let priority :=
          (Z.of_nat new_cost
           + (Zabs_diff (fst target) (fst start) + Zabs_diff (snd target) (snd start)))%Z in
        Ok (mkSearch (put neighbor priority (frontier st))
                     (<[neighbor := Some current]> (came_from st))
                     (<[neighbor := new_cost]> (cost_so_far st)))
      else Ok st
  end.

Fixpoint visit_all (start target current : pos) (st : search) (neighbors : list pos)
    : result search :=
  match neighbors with
  | [] => Ok st
  | neighbor :: rest =>
      match visit start target current st neighbor with
      | Raise e => Raise e
      | Ok st' => visit_all start target current st' rest
      end
  end.

(** [while not frontier.empty(): ...]. *)
Fixpoint explore (fuel : nat) (max_y max_x : Z) (start target : pos) (st : search)
    : option (result search) :=
  match get (frontier st) with
  | None => Some (Ok st)
  | Some (current, rest) =>
      match fuel with
      | O => None
      | S fuel' =>
          let st1 := mkSearch rest (came_from st) (cost_so_far st) in
          if decide (current = target) then Some (Ok st1)
          else
            match visit_all start target current st1
                    (get_neighbors current max_y max_x) with
            | Raise e => Some (Raise e)
            | Ok st' => explore fuel' max_y max_x start target st'
            end
      end
  end.

(** [while current != game_obj.position: ...].  The start is stored with
    [came_from[start] = None]; were that entry followed, the next
    iteration would look [None] up and raise. *)
Fixpoint trace (fuel : nat) (came : gmap pos (option pos)) (start current : pos)
    (path : list pos) : option (result (list pos)) :=
  if decide (current = start) then Some (Ok path)
  else
    match fuel with
    | O => None
    | S fuel' =>
        match came !! current with
        | None => Some (Raise KeyError)
        | Some None => Some (Raise KeyError)
        | Some (Some previous) => trace fuel' came start previous (path ++ [current])
        end
    end.

(** [pathfind] from a start position. *)
Definition pathfind_from (fuel : nat) (max_y max_x : Z) (start target : pos)
    : option (result (list pos)) :=
  let st0 := mkSearch (put start 0 []) {[start := None]} {[start := 0%nat]} in
  match explore fuel max_y max_x start target st0 with
  | None => None
  | Some (Raise e) => Some (Raise e)
  | Some (Ok st) =>
      match trace fuel (came_from st) start target [] with
      | None => None
      | Some (Raise e) => Some (Raise e)
      | Some (Ok path) => Some (Ok (rev path))
      end
  end.

(** The clock readings at which a frame was drawn. *)
Definition drawn_at (ph : list phase) : list Z :=
  flat_map (fun p => match p with DrawFrame t => [t] | _ => [] end) ph.

(** The Manhattan distance between two positions. *)
Definition manhattan (a b : pos) : Z :=
  (Zabs_diff (fst a) (fst b) + Zabs_diff (snd a) (snd b))%Z.

(** *** Notions used to state the properties of the search *)

Definition in_bounds (max_y max_x : Z) (p : pos) : bool :=
  ((0 <=? fst p) && (fst p <=? max_y) && (0 <=? snd p) && (snd p <=? max_x))%Z.

(** Every position of the grid [[0, max_y] x [0, max_x]]. *)
Definition cells (max_y max_x : Z) : list pos :=
  list_prod (List.map Z.of_nat (seq 0 (Z.to_nat (max_y + 1))))
            (List.map Z.of_nat (seq 0 (Z.to_nat (max_x + 1)))).

(** The positions the search can ever record: the start and the grid. *)
Definition reachable_keys (max_y max_x : Z) (start : pos) : list pos :=
  start :: cells max_y max_x.

(** How many of the given positions have no cost yet. *)
Definition unassigned (cost : gmap pos nat) (l : list pos) : nat :=
  list_sum (List.map (fun p => match cost !! p with None => 1 | Some _ => 0 end) l).

(** The costs recorded for the given positions, added up. *)
Definition total_cost (cost : gmap pos nat) (l : list pos) : nat :=
  list_sum (List.map (fun p => match cost !! p with None => 0 | Some c => c end) l).

Definition weight (st : search) (l : list pos) : nat :=
  2 * total_cost (cost_so_far st) l + length (frontier st).

(** Every queued position has a cost, and only positions of [l] are keys. *)
Definition search_ok (l : list pos) (st : search) : Prop :=
  (forall p, In p (frontier st) -> is_Some (cost_so_far st !! p))
  /\ (forall p, is_Some (cost_so_far st !! p) -> In p l)
  /\ (forall p, is_Some (came_from st !! p) -> In p l).

(** [(a', w')] comes no later than [(a, w)] in the lexicographic order. *)
Definition lex_le (a' w' a w : nat) : Prop := a' < a \/ (a' = a /\ w' <= w).

(** [pathfind(game_obj, target_position)].  An object without a position
    fails when [get_neighbors] unpacks it. *)
Definition pathfind (fuel : nat) (g : TermGame) (game_obj : ref) (target_position : pos)
    : option (result (list pos)) :=
  match GameObject.position (objects g game_obj) with
  | None => Some (Raise TypeError)
  | Some start => pathfind_from fuel (max_y g) (max_x g) start target_position
  end.

End TermGame.

(** * The registry, spawning and destroying *)

From Stdlib Require String.

Section DictMore.
Context {K V : Type} `{EqDecision K}.

(** [d[k] = v]: an existing key keeps its place, a new key goes to the end. *)
Definition dset (k : K) (v : V) (d : list (K * V)) : list (K * V) :=
  dupd k v (fun _ => v) d.

(** [del d[k]]; [None] stands for the [KeyError] of a missing key. *)
Fixpoint ddel (k : K) (d : list (K * V)) : option (list (K * V)) :=
  match d with
  | [] => None
  | (k', v) :: r =>
      if decide (k = k') then Some r
      else match ddel k r with
           | Some r' => Some ((k', v) :: r')
           | None => None
           end
  end.
End DictMore.

Module Registry.

#[global] Instance label_eq_dec : EqDecision String.string := String.string_dec.

(** The game together with the fields of [TermGame] that spawning,
    destroying and logging use.  [next_ref] is where the object store
    puts the next constructed object.  A resource class is represented by
    the collision profile its constructor leaves on the new object; the
    id and the position are assigned by the game. *)
Record Session : Type := mkSession {
  game : TermGame.TermGame;
  next_game_obj_id : Z;
  next_ref : ref;
  resources : list (String.string * GameObject.Collision);
  debug_log : list String.string
}.

Definition set_game (g : TermGame.TermGame) (s : Session) : Session :=
  mkSession g (next_game_obj_id s) (next_ref s) (resources s) (debug_log s).

Definition set_debug_log (l : list String.string) (s : Session) : Session :=
  mkSession (game s) (next_game_obj_id s) (next_ref s) (resources s) l.

Definition set_active_objects (a : list (Z * ref)) (g : TermGame.TermGame)
    : TermGame.TermGame :=
  TermGame.mkTermGame (TermGame.max_y g) (TermGame.max_x g) (TermGame.objects g)
    (TermGame.collision_map g) (TermGame.now g) (TermGame.last_frame_time g)
    (TermGame.frame_delay g) a (TermGame.move_requests g).

(** Writing a whole object at a reference. *)
Definition heap_store (h : heap) (r : ref) (o : GameObject.GameObject) : heap :=
  fun r' => if decide (r' = r) then o else h r'.

(** [__new_game_object]: constructs the resource, gives it the next id and
    files it under that id. *)
Definition new_game_object (s : Session) (label : String.string)
    : TermGame.result (Session * ref) :=
  match dget label (resources s) with
  | None => TermGame.Raise TermGame.KeyError
  | Some profile =>
      let g := game s in
      let game_obj := next_ref s in
      let built := GameObject.mkGameObject (next_game_obj_id s) None profile in
      TermGame.Ok
        (mkSession
           (set_active_objects
              (dset (next_game_obj_id s) game_obj (TermGame.active_objects g))
              (TermGame.set_objects (heap_store (TermGame.objects g) game_obj built) g))
           (next_game_obj_id s + 1) (S (next_ref s)) (resources s) (debug_log s),
         game_obj)
  end.

(** [spawn_obj]; an unknown label falls off the end and returns [None]. *)
Definition spawn_obj (s : Session) (obj_label : String.string) (position : option pos)
    : TermGame.result (Session * option ref) :=
  match dget obj_label (resources s) with
  | None => TermGame.Ok (s, None)
  | Some _ =>
      match new_game_object s obj_label with
      | TermGame.Raise e => TermGame.Raise e
      | TermGame.Ok (s1, game_obj) =>
          let g := game s1 in
          let h := heap_set_position (TermGame.objects g) game_obj position in
          TermGame.Ok
            (set_game
               (TermGame.set_collision_map
                  (CollisionMap.add_obj (TermGame.collision_map g)
                     (GameObject.layer (GameObject.collision (h game_obj)))
                     (GameObject.position (h game_obj)) game_obj)
                  (TermGame.set_objects h g))
               s1,
             Some game_obj)
      end
  end.

(** [destroy_object]: the [del] comes first and raises for an id that is
    not filed. *)
Definition destroy_object (s : Session) (game_obj : ref) : TermGame.result Session :=
  let g := game s in
  let o := TermGame.objects g game_obj in
  match ddel (GameObject.id o) (TermGame.active_objects g) with
  | None => TermGame.Raise TermGame.KeyError
  | Some remaining =>
      TermGame.Ok
        (set_game
           (TermGame.set_collision_map
              (CollisionMap.remove_obj (TermGame.collision_map g)
                 (GameObject.layer (GameObject.collision o)) (GameObject.position o)
                 game_obj)
              (set_active_objects remaining g))
           s)
  end.

(** [get_objects_at_position(position, layer=None)]. *)
Definition get_objects_at_position (g : TermGame.TermGame)
    (position : option pos) (layer : option Z) : list (Z * list ref) :=
  fold_left
    (fun game_objs_dict e =>
       if CollisionMap.layer_truthy layer
          && negb (bool_decide (Some (fst (fst e)) = layer))
       then game_objs_dict
       else if bool_decide (snd (fst e) = position)
       then dset (fst (fst e)) (snd e) game_objs_dict
       else game_objs_dict)
    (CollisionMap.iter (TermGame.collision_map g)) [].

(** [log]: the entry goes to the front and the log is cut to 15 entries.
    [render] stands for the f-string that joins the time stamp, the
    caller's label and the message. *)
Definition log (render : Z -> ref -> String.string -> String.string)
    (s : Session) (caller : ref) (message : String.string) : Session :=
  set_debug_log
    (firstn 15 (render (TermGame.now (game s)) caller message :: debug_log s)) s.

(** *** Notions used to state the properties *)

(** Every filed object carries the id it is filed under, ids and
    references in use lie below the two counters, no reference is filed
    twice, and everything the map lists has been constructed. *)
Definition registry_ok (s : Session) : Prop :=
  let g := game s in
  List.NoDup (keys (TermGame.active_objects g))
  /\ List.NoDup (List.map snd (TermGame.active_objects g))
  /\ (forall i r, In (i, r) (TermGame.active_objects g) ->
        GameObject.id (TermGame.objects g r) = i
        /\ (i < next_game_obj_id s)%Z /\ r < next_ref s)
  /\ (forall r L P, In r (CollisionMap.bucket (TermGame.collision_map g) L P) ->
        r < next_ref s).

End Registry.

(** ** The methods of [GameObject] that call back into the game *)
Module Entity.

(** [move_abs]. *)
Definition move_abs (s : Registry.Session) (self : ref) (position : option pos)
    : Registry.Session :=
  Registry.set_game (TermGame.move (Registry.game s) self position) s.

(** [move_rel]: a request relative to the recorded position, or a log
    entry when there is none.  [message] stands for the f-string. *)
Definition move_rel (render : Z -> ref -> String.string -> String.string)
    (message : pos -> String.string)
    (s : Registry.Session) (self : ref) (screen_delta : pos) : Registry.Session :=
  match GameObject.position (TermGame.objects (Registry.game s) self) with
  | Some (scr_y, scr_x) =>
      Registry.set_game
        (TermGame.move (Registry.game s) self
           (Some (scr_y + fst screen_delta, scr_x + snd screen_delta)%Z))
        s
  | None => Registry.log render s self (message screen_delta)
  end.

(** [destroy]. *)
Definition destroy (s : Registry.Session) (self : ref)
    : TermGame.result Registry.Session :=
  Registry.destroy_object s self.

(** [on_rigidbody_collision]: one log entry per collider. *)
Definition on_rigidbody_collision
    (render : Z -> ref -> String.string -> String.string)
    (message : ref -> ref -> String.string)
    (s : Registry.Session) (self : ref) (colliders : list ref) : Registry.Session :=
  fold_left (fun s collider => Registry.log render s self (message self collider))
            colliders s.

End Entity.

(** * Further notions *)
Module Notions.

(** No bucket holds two rigidbodies. *)
Definition calm (h : heap) (m : CollisionMap.t) : bool :=
  forallb
    (fun e =>
       (length (List.filter
                  (fun game_obj => GameObject.rigidbody (GameObject.collision (h game_obj)))
                  (snd e)) <=? 1)%nat)
    (CollisionMap.iter m).

(** Each position of the path is a neighbor, as [get_neighbors] gives
    them, of the one before it, the first of [from]. *)
Fixpoint walk (max_y max_x : Z) (from : pos) (path : list pos) : Prop :=
  match path with
  | [] => True
  | p :: rest => In p (TermGame.get_neighbors from max_y max_x) /\ walk max_y max_x p rest
  end.

(** What the search keeps true of its dictionaries: the start stays at
    cost 0 with no predecessor; every other position with a cost has a
    predecessor of lower cost of which it is a neighbor; queued positions
    have a cost; and nothing has a predecessor without having a cost. *)
Definition traced (max_y max_x : Z) (start : pos) (st : TermGame.search) : Prop :=
  TermGame.came_from st !! start = Some None
  /\ TermGame.cost_so_far st !! start = Some 0
  /\ (forall p, In p (TermGame.frontier st) -> is_Some (TermGame.cost_so_far st !! p))
  /\ (forall p c, TermGame.cost_so_far st !! p = Some c -> p <> start ->
        exists q cq,
          TermGame.came_from st !! p = Some (Some q)
          /\ TermGame.cost_so_far st !! q = Some cq /\ cq < c
          /\ In p (TermGame.get_neighbors q max_y max_x))
  /\ (forall p, TermGame.cost_so_far st !! p = None -> TermGame.came_from st !! p = None).

(** Every position that has a cost and is no longer queued has had all
    its neighbors given a cost. *)
Definition closed (max_y max_x : Z) (st : TermGame.search) : Prop :=
  forall p, is_Some (TermGame.cost_so_far st !! p) -> ~ In p (TermGame.frontier st) ->
    forall nb, In nb (TermGame.get_neighbors p max_y max_x) ->
      is_Some (TermGame.cost_so_far st !! nb).

End Notions.

(** * Concrete situations used below *)
Module Scenario.

(** A rigidbody collider with the given id, position and layer. *)
Definition body (i : Z) (p : option pos) (l : Z) : GameObject.GameObject :=
  GameObject.mkGameObject i p (GameObject.mkCollision true true l 1 false).

(** Objects 1 and 2 share [(1, 1)] on layer 0, objects 3 and 4 share
    [(2, 2)] on layer 1; every other reference is a fresh object. *)
Definition crowd : heap :=
  fun r =>
    match r with
    | 1 => body 1 (Some (1, 1)%Z) 0
    | 2 => body 2 (Some (1, 1)%Z) 0
    | 3 => body 3 (Some (2, 2)%Z) 1
    | 4 => body 4 (Some (2, 2)%Z) 1
    | _ => GameObject.init (-1)
    end.

Definition one_layer : CollisionMap.t := [(0%Z, [(Some (1, 1)%Z, [1; 2])])].

Definition two_layers : CollisionMap.t :=
  [(1%Z, [(Some (2, 2)%Z, [3; 4])]); (0%Z, [(Some (1, 1)%Z, [1; 2])])].

Definition game (my mx : Z) (h : heap) (m : CollisionMap.t)
    (active : list (Z * ref)) (q : list (ref * option pos)) : TermGame.TermGame :=
  TermGame.mkTermGame my mx h m 0 None (1 # 100) active q.

(** Object 5 stands alone at [(0, 0)]; object 7 was never given a
    collision profile of its own nor a place in the map. *)
Definition lonely : heap :=
  fun r =>
    match r with
    | 5 => body 5 (Some (0, 0)%Z) 0
    | _ => GameObject.init (-1)
    end.

Definition lonely_map : CollisionMap.t := [(0%Z, [(Some (0, 0)%Z, [5])])].

(** An object standing at the given position, on a grid of the given size. *)
Definition walker (my mx : Z) (s : pos) : TermGame.TermGame :=
  game my mx (fun _ => body 0 (Some s) 0) [] [] [].

End Scenario.

(** * Further concrete situations *)
Module Cases.

(** Two rigidbodies side by side on layer 0, each listed where it stands. *)
Definition neighbours : heap :=
  fun r =>
    match r with
    | 1 => Scenario.body 1 (Some (5, 5)%Z) 0
    | 2 => Scenario.body 2 (Some (5, 6)%Z) 0
    | _ => GameObject.init (-1)
    end.

Definition neighbours_map : CollisionMap.t :=
  [(0%Z, [(Some (5, 5)%Z, [1]); (Some (5, 6)%Z, [2])])].

Definition neighbours_game (q : list (ref * option pos)) : TermGame.TermGame :=
  Scenario.game 9 9 neighbours neighbours_map [(1%Z, 1); (2%Z, 2)] q.

Import String.

Definition wall_label : String.string := "wall"%string.
Definition ghost_label : String.string := "ghost"%string.

(** The two neighbours with two resource classes: walls are rigidbody
    colliders, ghosts keep the default profile. *)
Definition session : Registry.Session :=
  Registry.mkSession (neighbours_game []) 3 3
    [(wall_label, GameObject.mkCollision true true 0 1 false);
     (ghost_label, GameObject.Collision_default)]
    [].

End Cases.

(** * Properties *)

(** ** Facts about insertion-ordered dictionaries *)
Section DictFacts.
Context {K V : Type} `{EqDecision K}.
Implicit Types (d : list (K * V)) (k : K).

Lemma dget_dupd k k' dflt f d :
  dget k' (dupd k dflt f d)
  = if decide (k' = k) then Some (f (dfind k dflt d)) else dget k' d.
Proof.
  unfold dfind. induction d as [|[k0 v0] d IH]; simpl.
  - destruct (decide (k' = k)); reflexivity.
  - destruct (decide (k = k0)) as [->|Hne]; simpl.
    + destruct (decide (k' = k0)); reflexivity.
    + destruct (decide (k' = k0)) as [->|Hne'].
      * destruct (decide (k0 = k)); [congruence | reflexivity].
      * exact IH.
Qed.

Lemma dfind_dupd k k' dflt f d :
  dfind k' dflt (dupd k dflt f d)
  = if decide (k' = k) then f (dfind k dflt d) else dfind k' dflt d.
Proof.
  unfold dfind at 1. rewrite dget_dupd.
  destruct (decide (k' = k)); reflexivity.
Qed.

Lemma keys_dupd k dflt f d :
  keys (dupd k dflt f d) = keys d \/ (~ In k (keys d) /\ keys (dupd k dflt f d) = keys d ++ [k]).
Proof.
  unfold keys. induction d as [|[k0 v0] d IH]; simpl.
  - right. split; [tauto | reflexivity].
  - destruct (decide (k = k0)) as [->|Hne]; simpl; [left; reflexivity |].
    destruct IH as [IH | [Hn IH]]; rewrite IH; [left; reflexivity |].
    right. split; [intros [E | Hin]; [congruence | tauto] | reflexivity].
Qed.

Lemma NoDup_keys_dupd k dflt f d :
  List.NoDup (keys d) -> List.NoDup (keys (dupd k dflt f d)).
Proof.
  intros Hd. destruct (keys_dupd k dflt f d) as [E | [Hn E]]; rewrite E; [exact Hd |].
  apply NoDup_rev in Hd. rewrite <- (rev_involutive (keys d ++ [k])).
  apply NoDup_rev. rewrite rev_app_distr. simpl. constructor; [| exact Hd].
  rewrite <- in_rev. exact Hn.
Qed.

Lemma In_dupd k k' v' dflt f d :
  In (k', v') (dupd k dflt f d) ->
  In (k', v') d \/ (k' = k /\ v' = f (dfind k dflt d)).
Proof.
  unfold dfind. induction d as [|[k0 v0] d IH]; simpl.
  - intros [E | []]. right. split; congruence.
  - destruct (decide (k = k0)) as [->|Hne]; simpl.
    + intros [E | Hin]; [right; split; congruence | left; right; exact Hin].
    + intros [E | Hin]; [left; left; exact E |].
      destruct (IH Hin) as [Hd | Hk]; [left; right; exact Hd | right; exact Hk].
Qed.

Lemma dget_In k v d : dget k d = Some v -> In (k, v) d.
Proof.
  induction d as [|[k0 v0] d IH]; simpl; [discriminate |].
  destruct (decide (k = k0)) as [->|Hne]; [intros [= ->]; left; reflexivity |].
  intros Hg. right. exact (IH Hg).
Qed.

Lemma In_dget k v d : List.NoDup (keys d) -> In (k, v) d -> dget k d = Some v.
Proof.
  unfold keys. induction d as [|[k0 v0] d IH]; simpl; [tauto |].
  intros Hnd Hin. inversion Hnd as [|? ? Hnot Hnd']; subst.
  destruct Hin as [E | Hin].
  - inversion E; subst. destruct (decide (k = k)); [reflexivity | congruence].
  - destruct (decide (k = k0)) as [->|Hne]; [| exact (IH Hnd' Hin)].
    exfalso. apply Hnot. apply (in_map fst) in Hin. exact Hin.
Qed.

Lemma msum_dupd (g : K -> V -> nat) k dflt f d :
  g k dflt = 0 ->
  msum g (dupd k dflt f d) + g k (dfind k dflt d)
  = msum g d + g k (f (dfind k dflt d)).
Proof.
  intros H0. unfold msum, dfind. induction d as [|[k0 v0] d IH]; simpl.
  - lia.
  - destruct (decide (k = k0)) as [->|Hne]; simpl; lia.
Qed.
End DictFacts.

(** ** Facts about the collision map *)
Section CollisionMapFacts.
Import CollisionMap.
Implicit Types (m : t) (o x : ref) (l : list ref).

Lemma wf_spec m :
  wf m = true <->
  List.NoDup (keys m) /\ forall L inner, In (L, inner) m -> List.NoDup (keys inner).
Proof.
  unfold wf. rewrite andb_true_iff, bool_decide_eq_true, NoDup_ListNoDup, forallb_forall.
  split; intros [Hk Hi]; split; try exact Hk.
  - intros L inner Hin. specialize (Hi _ Hin). simpl in Hi.
    rewrite bool_decide_eq_true, NoDup_ListNoDup in Hi. exact Hi.
  - intros [L inner] Hin. simpl.
    rewrite bool_decide_eq_true, NoDup_ListNoDup. exact (Hi _ _ Hin).
Qed.

Lemma wf_at_bucket f L P m : wf m = true -> wf (at_bucket f L P m) = true.
Proof.
  rewrite !wf_spec. intros [Hk Hi]. unfold at_bucket. split.
  - apply NoDup_keys_dupd. exact Hk.
  - intros L' inner' Hin. apply In_dupd in Hin. destruct Hin as [Hin | [-> ->]].
    + exact (Hi _ _ Hin).
    + apply NoDup_keys_dupd. unfold dfind.
      destruct (dget L m) as [inner|] eqn:E; [| constructor].
      exact (Hi _ _ (dget_In _ _ _ E)).
Qed.

Lemma wf_add_obj m L P o : wf m = true -> wf (add_obj m L P o) = true.
Proof. apply wf_at_bucket. Qed.

Lemma wf_remove_obj m L P o : wf m = true -> wf (remove_obj m L P o) = true.
Proof. apply wf_at_bucket. Qed.

Lemma bucket_at_bucket f L P m L' P' :
  bucket (at_bucket f L P m) L' P'
  = if decide (L' = L /\ P' = P) then f (bucket m L P) else bucket m L' P'.
Proof.
  unfold bucket, at_bucket. rewrite dfind_dupd.
  destruct (decide (L' = L)) as [->|HL].
  - rewrite dfind_dupd. destruct (decide (P' = P)) as [->|HP].
    + destruct (decide (L = L /\ P = P)); [reflexivity | tauto].
    + destruct (decide (L = L /\ P' = P)); [tauto | reflexivity].
  - destruct (decide (L' = L /\ P' = P)); [tauto | reflexivity].
Qed.

Lemma iter_spec m L P l :
  In (L, P, l) (iter m) <-> exists inner, In (L, inner) m /\ In (P, l) inner.
Proof.
  unfold iter. rewrite in_flat_map. split.
  - intros [[L0 inner] [Hin Hmap]]. simpl in Hmap. apply in_map_iff in Hmap.
    destruct Hmap as [[P0 l0] [E Hin']]. simpl in E. inversion E; subst.
    exists inner. split; assumption.
  - intros [inner [Hin Hin']]. exists (L, inner). split; [exact Hin |].
    simpl. apply in_map_iff. exists (P, l). split; [reflexivity | exact Hin'].
Qed.

(** With one entry per key, an iterated entry is the bucket found by lookup. *)
Lemma iter_bucket m L P l : wf m = true -> In (L, P, l) (iter m) -> bucket m L P = l.
Proof.
  rewrite wf_spec, iter_spec. intros [Hk Hi] [inner [Hin Hin']].
  unfold bucket, dfind. rewrite (In_dget _ _ _ Hk Hin).
  rewrite (In_dget _ _ _ (Hi _ _ Hin) Hin'). reflexivity.
Qed.

Lemma bucket_iter m L P o : In o (bucket m L P) -> In (L, P, bucket m L P) (iter m).
Proof.
  unfold bucket, dfind. intros Hin. apply iter_spec.
  destruct (dget L m) as [inner|] eqn:E; [| destruct Hin].
  exists inner. split; [exact (dget_In _ _ _ E) |].
  destruct (dget P inner) as [l|] eqn:E'; [| destruct Hin].
  exact (dget_In _ _ _ E').
Qed.

Lemma misplaced_at_bucket h f L P m :
  misplaced h (at_bucket f L P m) + displaced h P (bucket m L P)
  = misplaced h m + displaced h P (f (bucket m L P)).
Proof.
  unfold misplaced, at_bucket, bucket.
  pose proof (msum_dupd (fun (_ : Z) inner => msum (displaced h) inner)
                L [] (dupd P [] f) m eq_refl) as H1.
  pose proof (msum_dupd (displaced h) P [] f (dfind L [] m) eq_refl) as H2.
  simpl in H1. lia.
Qed.

(** *** [list.remove] *)

Lemma In_list_remove o x l : In x (list_remove o l) -> In x l.
Proof.
  induction l as [|y l IH]; simpl; [tauto |].
  destruct (decide (o = y)); simpl; tauto.
Qed.

Lemma In_list_remove_ne o x l : x <> o -> In x l -> In x (list_remove o l).
Proof.
  intros Hne. induction l as [|y l IH]; simpl; [tauto |].
  destruct (decide (o = y)) as [->|Hoy]; simpl; [intros [E | Hin]; congruence || tauto | tauto].
Qed.

Lemma NoDup_list_remove o l : List.NoDup l -> List.NoDup (list_remove o l).
Proof.
  induction l as [|y l IH]; simpl; [tauto |].
  intros Hnd. inversion Hnd as [|? ? Hnot Hnd']; subst.
  destruct (decide (o = y)); [exact Hnd' |].
  constructor; [| exact (IH Hnd')].
  intros Hin. apply Hnot. exact (In_list_remove _ _ _ Hin).
Qed.

Lemma not_In_list_remove o l : List.NoDup l -> ~ In o (list_remove o l).
Proof.
  induction l as [|y l IH]; simpl; [tauto |].
  intros Hnd. inversion Hnd as [|? ? Hnot Hnd']; subst.
  destruct (decide (o = y)) as [->|Hne]; [exact Hnot |].
  simpl. intros [E | Hin]; [congruence | exact (IH Hnd' Hin)].
Qed.

Lemma displaced_list_remove h P o l :
  In o l -> GameObject.position (h o) <> P ->
  displaced h P (list_remove o l) + 1 = displaced h P l.
Proof.
  intros Hin Hne. unfold displaced. induction l as [|y l IH]; simpl; [destruct Hin |].
  destruct (decide (o = y)) as [->|Hoy].
  - rewrite bool_decide_eq_false_2 by exact Hne. simpl. lia.
  - destruct Hin as [E | Hin]; [congruence |]. specialize (IH Hin). simpl.
    destruct (negb (bool_decide (GameObject.position (h y) = P))); simpl; lia.
Qed.

Lemma list_remove_absent o l : ~ In o l -> list_remove o l = l.
Proof.
  induction l as [|y l IH]; simpl; [reflexivity |].
  intros Hn. destruct (decide (o = y)) as [->|Hne]; [tauto |].
  rewrite IH; [reflexivity | tauto].
Qed.

(** Taking [x] out of one bucket and appending it to another, bucket by bucket. *)
Lemma count_occ_list_remove o x l :
  count_occ Nat.eq_dec (list_remove o l) x
  = if decide (x = o) then pred (count_occ Nat.eq_dec l o) else count_occ Nat.eq_dec l x.
Proof.
  induction l as [|y l IH]; simpl.
  - destruct (decide (x = o)); reflexivity.
  - destruct (decide (o = y)) as [->|Hoy].
    + destruct (Nat.eq_dec y y) as [_|Hn]; [| congruence].
      destruct (decide (x = y)) as [->|Hxy]; [reflexivity |].
      destruct (Nat.eq_dec y x); [congruence | reflexivity].
    + simpl. rewrite IH. destruct (decide (x = o)) as [->|Hxo].
      * destruct (Nat.eq_dec y o); [congruence |].
        destruct (Nat.eq_dec y o); [congruence | reflexivity].
      * reflexivity.
Qed.

Lemma bucket_put m L P x q L' P' :
  bucket (add_obj (remove_obj m L P x) L q x) L' P'
  = (if decide (L' = L /\ P' = q) then fun l => l ++ [x] else fun l => l)
      ((if decide (L' = L /\ P' = P) then list_remove x else fun l => l)
         (bucket m L' P')).
Proof.
  unfold add_obj, remove_obj.
  assert (Hrm : forall l,
             (if in_dec Nat.eq_dec x l then list_remove x l else l) = list_remove x l).
  { intros l. destruct (in_dec Nat.eq_dec x l); [reflexivity |].
    symmetry. apply list_remove_absent. assumption. }
  rewrite bucket_at_bucket.
  destruct (decide (L' = L /\ P' = q)) as [[-> ->]|Hnq].
  - rewrite bucket_at_bucket, Hrm.
    destruct (decide (L = L /\ q = P)) as [[_ ->]|]; reflexivity.
  - rewrite bucket_at_bucket, Hrm.
    destruct (decide (L' = L /\ P' = P)) as [[-> ->]|]; reflexivity.
Qed.

Lemma displaced_app_home h o l :
  displaced h (GameObject.position (h o)) (l ++ [o])
  = displaced h (GameObject.position (h o)) l.
Proof.
  unfold displaced. rewrite List.filter_app, List.length_app. simpl.
  rewrite bool_decide_eq_true_2 by reflexivity. simpl. lia.
Qed.
End CollisionMapFacts.

(** ** Rigidbody queries *)
Section Queries.
Import CollisionMap.

Lemma rb_scan_not_single h sl sp cs acc : rb_scan h sl sp false cs acc = None.
Proof.
  revert acc. induction cs as [|c cs IH]; intros acc; simpl; [reflexivity |].
  repeat match goal with |- context [if ?b then _ else _] => destruct b end;
    apply IH.
Qed.

(** C4.  [get_rb_collisions] called without [single] builds the list of
    rigidbody collisions and then returns [None]; and a requested layer 0
    is treated as no layer at all: with the layer-1 bucket first in the
    map, asking for layer 0 yields the layer-1 collision. *)
Theorem get_rb_collisions_loses_list :
  (forall h m layer position, get_rb_collisions h m layer position false = None)
  /\ get_rb_collisions Scenario.crowd Scenario.one_layer None None true
     = Some (mkCollision 0 (Some (1, 1)%Z) [1; 2])
  /\ get_rb_collisions Scenario.crowd Scenario.two_layers (Some 0%Z) None true
     = Some (mkCollision 1 (Some (2, 2)%Z) [3; 4]).
Proof.
  split; [| split].
  - intros h m l p. apply rb_scan_not_single.
  - reflexivity.
  - reflexivity.
Qed.
End Queries.

(** ** Draining the relocation requests *)
Section Drain.
Import CollisionMap TermGame.

Lemma pop_snoc {A} (l : list A) (x : A) : pop (l ++ [x]) = Some (l, x).
Proof. unfold pop. rewrite rev_app_distr. simpl. rewrite rev_involutive. reflexivity. Qed.

Lemma drain_spec (l : list (ref * option pos)) :
  forall fuel g, move_requests g = l -> length l <= fuel ->
    drain fuel g
    = Some (set_collision_map
              (fold_left (apply_request (objects g)) (rev l) (collision_map g))
              (set_move_requests [] g)).
Proof.
  induction l as [|rq l IH] using rev_ind; intros fuel g Hq Hfuel.
  - destruct fuel; simpl; rewrite Hq; simpl; destruct g; simpl in *; subst; reflexivity.
  - rewrite List.length_app in Hfuel. simpl in Hfuel.
    destruct fuel as [|fuel]; [lia |]. simpl. rewrite Hq, pop_snoc.
    rewrite IH; [| reflexivity | simpl; lia].
    rewrite rev_app_distr. simpl. reflexivity.
Qed.

(** What one request does to every bucket. *)
Lemma bucket_apply_request h m o p L' P' :
  let L := GameObject.layer (GameObject.collision (h o)) in
  let old := GameObject.position (h o) in
  bucket (apply_request h m (o, p)) L' P'
  = (if decide (L' = L /\ P' = p) then fun l => l ++ [o] else fun l => l)
      ((if decide (L' = L /\ P' = old) then list_remove o else fun l => l)
         (bucket m L' P')).
Proof. intros L old. unfold apply_request. apply bucket_put. Qed.

Lemma move_objects_queued fuel g :
  move_requests g <> [] ->
  move_objects fuel g
  = match drain fuel g with
    | None => None
    | Some g1 =>
        match resolve fuel (objects g1) (collision_map g1)
                (get_rb_collisions (objects g1) (collision_map g1) None None true) [] [] 0 with
        | None => None
        | Some res =>
            Some (set_objects (reconcile (objects g1) (res_map res))
                    (set_collision_map (res_map res) g1),
                  notify (active_objects g1) (res_report res))
        end
    end.
Proof. unfold move_objects. destruct (move_requests g); [congruence | reflexivity]. Qed.

Lemma wf_apply_requests h rqs :
  forall m, wf m = true -> wf (fold_left (apply_request h) rqs m) = true.
Proof.
  induction rqs as [|[x q] rqs IH]; intros m Hwf; simpl; [exact Hwf |].
  apply IH. apply wf_add_obj, wf_remove_obj, Hwf.
Qed.

(** C9.  With no relocation request queued, [__move_objects] returns at
    once: the game state (every position field, every bucket) is the one
    it was given and no collision notification is sent. *)
Theorem move_objects_empty_queue (fuel : nat) (g : TermGame)
    (Hq : move_requests g = []) :
  move_objects fuel g = Some (g, []).
Proof. unfold move_objects. rewrite Hq. reflexivity. Qed.

Lemma move_objects_empty_queue_witness :
  move_objects 0 (Scenario.game 3 3 Scenario.crowd Scenario.one_layer [(1%Z, 1); (2%Z, 2)] [])
  = Some (Scenario.game 3 3 Scenario.crowd Scenario.one_layer [(1%Z, 1); (2%Z, 2)] [], []).
Proof. apply move_objects_empty_queue. reflexivity. Defined.



End Drain.

(** ** Requests for objects that take no part in collisions *)
Section Unprofiled.
Import CollisionMap TermGame.



End Unprofiled.

(** ** Frame pacing *)
Section Pacing.
Import TermGame.

Lemma drain_last_frame_time fuel :
  forall g g1, drain fuel g = Some g1 -> last_frame_time g1 = last_frame_time g.
Proof.
  induction fuel as [|fuel IH]; intros g g1; simpl;
    destruct (pop (move_requests g)) as [[rest rq]|]; try congruence.
  intros Hd. rewrite (IH _ _ Hd). reflexivity.
Qed.

Lemma move_objects_last_frame_time fuel g g' n :
  move_objects fuel g = Some (g', n) -> last_frame_time g' = last_frame_time g.
Proof.
  unfold move_objects. destruct (move_requests g); [congruence |].
  destruct (drain fuel g) as [g1|] eqn:Hd; [| discriminate].
  destruct (resolve _ _ _ _ _ _ _) as [res|]; [| discriminate].
  intros [= <- _]. simpl. exact (drain_last_frame_time _ _ _ Hd).
Qed.

Lemma fold_move_last_frame_time rqs :
  forall g, last_frame_time (fold_left (fun g rq => move g (fst rq) (snd rq)) rqs g)
            = last_frame_time g.
Proof. induction rqs as [|rq rqs IH]; intros g; simpl; [reflexivity | rewrite IH; reflexivity]. Qed.

Lemma loop_always_draws fuel t rqs g g' ph :
  last_frame_time g = None -> loop fuel t rqs g = Some (g', ph) ->
  drawn_at ph = [t] /\ last_frame_time g' = None.
Proof.
  intros Hl. unfold loop.
  destruct (move_objects fuel _) as [[g3 n]|] eqn:Hm; [| discriminate].
  pose proof (move_objects_last_frame_time _ _ _ _ Hm) as H3.
  rewrite fold_move_last_frame_time in H3. simpl in H3. rewrite Hl in H3.
  assert (Hnow : now g3 = t).
  { revert Hm. unfold move_objects.
    assert (Hf : forall rqs g, now (fold_left (fun g rq => move g (fst rq) (snd rq)) rqs g)
                               = now g).
    { clear. induction rqs as [|rq rqs IH]; intros g; simpl;
        [reflexivity | rewrite IH; reflexivity]. }
    assert (Hdn : forall fuel g g1, drain fuel g = Some g1 -> now g1 = now g).
    { clear. induction fuel as [|fuel IH]; intros g g1; simpl;
        destruct (pop (move_requests g)) as [[rest rq]|]; try congruence.
      intros Hd. rewrite (IH _ _ Hd). reflexivity. }
    destruct (move_requests _); [intros [= <- _]; rewrite Hf; reflexivity |].
    destruct (drain fuel _) as [g1|] eqn:Hd; [| discriminate].
    destruct (resolve _ _ _ _ _ _ _) as [res|]; [| discriminate].
    intros [= <- _]. simpl. rewrite (Hdn _ _ _ Hd), Hf. reflexivity. }
  unfold draw_frame, ready_for_next_frame. rewrite H3.
  intros [= <- <-]. simpl. rewrite Hnow. split; [reflexivity | exact H3].
Qed.

(** C3.  [last_frame_time] is [None] after [__init__] and nothing assigns
    it, so [__ready_for_next_frame] answers [True] in every pass: a frame
    is drawn at every clock reading, however close to the previous one. *)
Theorem frames_are_never_skipped (fuel : nat)
    (ticks : list (Z * list (ref * option pos))) (g g' : TermGame) (ph : list phase)
    (Hinit : last_frame_time g = None)
    (Hrun : run fuel ticks g = Some (g', ph)) :
  drawn_at ph = List.map fst ticks /\ last_frame_time g' = None.
Proof.
  revert g g' ph Hinit Hrun.
  induction ticks as [|[t rqs] ticks IH]; intros g g' ph Hinit; simpl.
  - intros [= <- <-]. split; [reflexivity | exact Hinit].
  - destruct (loop fuel t rqs g) as [[g1 ph1]|] eqn:Hl; [| discriminate].
    destruct (run fuel ticks g1) as [[g2 ph2]|] eqn:Hr; [| discriminate].
    intros [= <- <-].
    destruct (loop_always_draws _ _ _ _ _ _ Hinit Hl) as [Hd1 Hl1].
    destruct (IH _ _ _ Hl1 Hr) as [Hd2 Hl2].
    split; [| exact Hl2].
    unfold drawn_at in *. rewrite flat_map_app, Hd1, Hd2. reflexivity.
Qed.

(** Two passes one nanosecond apart, with a frame delay of 10 ms: both draw. *)
Lemma frames_are_never_skipped_witness :
  exists g' ph,
    run 0 [(1000%Z, []); (1001%Z, [])]
        (Scenario.game 3 3 Scenario.crowd Scenario.one_layer [(1%Z, 1); (2%Z, 2)] [])
    = Some (g', ph)
    /\ drawn_at ph = [1000%Z; 1001%Z].
Proof.
  eexists. eexists. split; [reflexivity |].
  exact (proj1 (frames_are_never_skipped 0 [(1000%Z, []); (1001%Z, [])]
                  (Scenario.game 3 3 Scenario.crowd Scenario.one_layer
                     [(1%Z, 1); (2%Z, 2)] [])
                  _ _ eq_refl eq_refl)).
Defined.
End Pacing.

(** ** Path search: evaluations *)
Section PathEvaluations.
Import TermGame.

(** C10.  Asked for the object's own position, the search pops the start,
    finds it equal to the target and stops; nothing is traced and the path
    is empty.  One unit of fuel pays for that single pass. *)
Theorem pathfind_to_own_position (fuel : nat) (g : TermGame) (o : ref) (s : pos)
    (Hpos : GameObject.position (objects g o) = Some s) :
  pathfind (S fuel) g o s = Some (Ok []).
Proof.
  unfold pathfind, pathfind_from. rewrite Hpos. simpl.
  destruct (decide (s = s)) as [_|Hne]; [| congruence].
  simpl. destruct (decide (s = s)) as [_|Hne]; [| congruence].
  destruct fuel; reflexivity.
Qed.

Lemma pathfind_to_own_position_witness :
  pathfind 1 (Scenario.walker 3 3 (2, 1)%Z) 0 (2, 1)%Z = Some (Ok []).
Proof. apply pathfind_to_own_position. reflexivity. Defined.

(** C5.  On a 2 x 4 grid, from [(1, 3)] to [(1, 0)]: the queue hands back
    the smallest position, not the cheapest, so row 0 is swept first and
    the target is reached through it.  The path has 5 steps; the
    Manhattan distance is 3. *)
Theorem pathfind_takes_detour :
  (forall k, pathfind (6 + k) (Scenario.walker 1 3 (1, 3)%Z) 0 (1, 0)%Z
             = Some (Ok [(0, 3); (0, 2); (0, 1); (0, 0); (1, 0)]%Z))
  /\ manhattan (1, 3)%Z (1, 0)%Z = 3%Z.
Proof.
  split; [| reflexivity]. intros k. vm_compute. reflexivity.
Qed.
End PathEvaluations.

(** ** The rigidbody resolution loop *)
Section Resolution.
Import CollisionMap TermGame.
Implicit Types (h : heap) (m : t) (c : Collision).

Local Abbreviation fetch h m := (get_rb_collisions h m None None true).
Local Abbreviation rigid h :=
  (fun game_obj => GameObject.rigidbody (GameObject.collision (h game_obj))).

Lemma rb_scan_single h cs acc c :
  rb_scan h None None true cs acc = Some c ->
  exists c0, In c0 cs
             /\ c = mkCollision (layer c0) (position c0) (List.filter (rigid h) (colliders c0))
             /\ 1 < length (colliders c).
Proof.
  induction cs as [|c0 cs IH]; simpl; [discriminate |].
  destruct (1 <? length (List.filter (rigid h) (colliders c0))) eqn:E.
  - intros [= <-]. exists c0. split; [left; reflexivity |]. split; [reflexivity |].
    simpl. apply Nat.ltb_lt in E. exact E.
  - intros Hs. destruct (IH Hs) as [c1 [Hin Hc]]. exists c1. split; [right; exact Hin | exact Hc].
Qed.

Lemma detect_collisions_iter m c0 :
  In c0 (detect_collisions m) -> In (layer c0, position c0, colliders c0) (iter m).
Proof.
  unfold detect_collisions. rewrite in_flat_map. intros [[[L P] l] [Hin Hc]].
  destruct (1 <? length l); [| destruct Hc].
  destruct Hc as [<- | []]. exact Hin.
Qed.

(** A fetched collision lists occupants of the bucket it names. *)
Lemma fetch_in_bucket h m c x :
  wf m = true -> fetch h m = Some c -> In x (colliders c) ->
  In x (bucket m (layer c) (position c)).
Proof.
  intros Hwf Hf Hx. unfold get_rb_collisions in Hf.
  destruct (rb_scan_single _ _ _ _ Hf) as [c0 (Hin & -> & _)]. simpl in *.
  apply detect_collisions_iter in Hin. rewrite (iter_bucket _ _ _ _ Hwf Hin).
  apply filter_In in Hx. tauto.
Qed.

Lemma revert_first_spec h m c cs m' b :
  revert_first h m c cs = (m', b) ->
  (b = true /\ exists x,
      In x cs /\ GameObject.position (h x) <> position c
      /\ m' = add_obj (remove_obj m (layer c) (position c) x)
                      (layer c) (GameObject.position (h x)) x)
  \/ (b = false /\ m' = m
      /\ forall x, In x cs -> GameObject.position (h x) = position c).
Proof.
  induction cs as [|y cs IH]; simpl.
  - intros [= <- <-]. right. repeat split. intros x [].
  - destruct (decide (GameObject.position (h y) = position c)) as [E|Hne].
    + intros Hr. destruct (IH Hr) as [[Hb [x (Hin & Hx & Hm)]] | (Hb & Hm & Hall)].
      * left. split; [exact Hb |]. exists x. split; [right; exact Hin | tauto].
      * right. repeat split; try assumption. intros x [<- | Hin]; [exact E | exact (Hall _ Hin)].
    + intros [= <- <-]. left. split; [reflexivity |]. exists y.
      split; [left; reflexivity |]. split; [exact Hne | reflexivity].
Qed.

(** Putting a displaced occupant back lowers the count of displaced
    occupants by one. *)
Lemma misplaced_put_back h m L P x :
  In x (bucket m L P) -> GameObject.position (h x) <> P ->
  misplaced h (add_obj (remove_obj m L P x) L (GameObject.position (h x)) x) + 1
  = misplaced h m.
Proof.
  intros Hin Hne. unfold add_obj, remove_obj.
  pose proof (misplaced_at_bucket h
                (fun l => if in_dec Nat.eq_dec x l then list_remove x l else l) L P m) as H1.
  simpl in H1. destruct (in_dec Nat.eq_dec x (bucket m L P)) as [_|Hn]; [| tauto].
  pose proof (displaced_list_remove h P x _ Hin Hne) as H2.
  match goal with |- misplaced h (at_bucket ?f L ?Q ?m1) + 1 = _ =>
    pose proof (misplaced_at_bucket h f L Q m1) as H3 end.
  simpl in H3. rewrite displaced_app_home in H3. lia.
Qed.

(** What one pass of the loop body does. *)
Lemma attempt_spec h m c unres r :
  wf m = true -> fetch h m = Some c ->
  exists m' unres',
    attempt h m c unres r = (m', unres', record_peers h c r)
    /\ ((exists x,
           In x (colliders c) /\ GameObject.position (h x) <> position c
           /\ m' = add_obj (remove_obj m (layer c) (position c) x)
                           (layer c) (GameObject.position (h x)) x
           /\ unres' = unres
           /\ misplaced h m' + 1 = misplaced h m
           /\ wf m' = true)
        \/ (m' = m /\ unres' = unres ++ [c]
            /\ (forall x, In x (colliders c) -> GameObject.position (h x) = position c)
            /\ refetch h m' unres' = None)).
Proof.
  intros Hwf Hf. unfold attempt.
  destruct (revert_first h m c (colliders c)) as [m' b] eqn:Hr.
  exists m', (if b then unres else unres ++ [c]). split; [reflexivity |].
  destruct (revert_first_spec _ _ _ _ _ _ Hr)
    as [[-> [x (Hin & Hx & Hm)]] | (-> & -> & Hall)].
  - left. exists x. repeat split; try assumption.
    + subst m'. apply misplaced_put_back; [| exact Hx].
      exact (fetch_in_bucket _ _ _ _ Hwf Hf Hin).
    + subst m'. apply wf_add_obj, wf_remove_obj, Hwf.
  - right. repeat split; try assumption.
    unfold refetch. rewrite Hf.
    destruct (in_dec Collision_eq_dec c (unres ++ [c])) as [_|Hn]; [reflexivity |].
    exfalso. apply Hn. apply in_or_app. right. left. reflexivity.
Qed.

Lemma refetch_at_loop_test h m unres : at_loop_test h m unres (refetch h m unres).
Proof.
  unfold at_loop_test, refetch. destruct (fetch h m) as [c'|]; [| left; reflexivity].
  destruct (in_dec Collision_eq_dec c' unres) as [Hin|Hn]; [| left; reflexivity].
  right. split; [reflexivity |]. exists c'. split; [reflexivity | exact Hin].
Qed.

Lemma record_peers_keys h c (r : report) :
  List.NoDup (keys r) -> List.NoDup (keys (record_peers h c r)).
Proof.
  unfold record_peers. generalize (colliders c) at 2. intros l. revert r.
  induction l as [|x l IH]; intros r Hr; simpl; [exact Hr |].
  apply IH. apply NoDup_keys_dupd. exact Hr.
Qed.

Lemma resolve_total h fuel :
  forall m collision unres r k,
    wf m = true -> at_loop_test h m unres collision -> misplaced h m < fuel ->
    List.NoDup (keys r) ->
    exists res,
      resolve fuel h m collision unres r k = Some res
      /\ res_attempts res <= k + misplaced h m + 1
      /\ wf (res_map res) = true
      /\ List.NoDup (keys (res_report res))
      /\ (fetch h (res_map res) = None
          \/ exists c, fetch h (res_map res) = Some c /\ In c (res_unresolvable res)).
Proof.
  induction fuel as [|fuel IH]; intros m collision unres r k Hwf Hat Hfuel Hr; [lia |].
  destruct collision as [c|].
  - destruct Hat as [Hf | [Hn _]]; [| discriminate]. symmetry in Hf.
    destruct (attempt_spec h m c unres r Hwf Hf) as (m' & unres' & Ha & Hcase).
    simpl. rewrite Ha. pose proof (record_peers_keys h c r Hr) as Hr'.
    destruct Hcase as [[x (_ & _ & _ & _ & Hmis & Hwf')] | (-> & -> & _ & Hre)].
    + destruct (IH m' (refetch h m' unres') unres' (record_peers h c r) (S k) Hwf'
                  (refetch_at_loop_test _ _ _)) as (res & Hres & Hk & Hw & Hkeys & Hstop);
        [lia | exact Hr' |].
      exists res. repeat split; try assumption. lia.
    + rewrite Hre. eexists. split; [destruct fuel; reflexivity |]. simpl.
      split; [lia |]. split; [exact Hwf |]. split; [exact Hr' |].
      right. exists c. split; [exact Hf |].
      apply in_or_app. right. left. reflexivity.
  - eexists. split; [reflexivity |]. simpl. split; [lia |]. split; [exact Hwf |].
    split; [exact Hr |].
    destruct Hat as [Hf | [_ Hc]]; [left; symmetry; exact Hf | right; exact Hc].
Qed.








End Resolution.


(** ** Agreement between the map and the recorded positions *)
Section Agreement.
Import CollisionMap TermGame.
Implicit Types (h : heap) (m : t) (o x y : ref).

Local Abbreviation fetch h m := (get_rb_collisions h m None None true).
Local Abbreviation olayer h o := (GameObject.layer (GameObject.collision (h o))).
Local Abbreviation opos h o := (GameObject.position (h o)).

Lemma put_tidy h m L P x q :
  tidy h m -> L = olayer h x ->
  (forall L' P', In x (bucket m L' P') -> P' = P) ->
  let m' := add_obj (remove_obj m L P x) L q x in
  tidy h m'
  /\ (forall L' P', In x (bucket m' L' P') <-> (L' = L /\ P' = q))
  /\ (forall y L' P', y <> x -> (In y (bucket m' L' P') <-> In y (bucket m L' P'))).
Proof.
  intros (Hlay & Hnd & Huniq) HL Honly m'.
  set (b1 := fun L' P' =>
               (if decide (L' = L /\ P' = P) then list_remove x else fun l => l)
                 (bucket m L' P')).
  assert (Hb : forall L' P',
             bucket m' L' P'
             = (if decide (L' = L /\ P' = q) then fun l => l ++ [x] else fun l => l)
                 (b1 L' P')).
  { intros L' P'. unfold m', b1. apply bucket_put. }
  assert (Hx1 : forall L' P', ~ In x (b1 L' P')).
  { intros L' P'. unfold b1. destruct (decide (L' = L /\ P' = P)) as [[-> ->]|Hn].
    - apply not_In_list_remove, Hnd.
    - intros Hin. apply Hn. split; [| exact (Honly _ _ Hin)].
      rewrite (Hlay _ _ _ Hin). symmetry. exact HL. }
  assert (Hy1 : forall y L' P', y <> x -> (In y (b1 L' P') <-> In y (bucket m L' P'))).
  { intros y L' P' Hne. unfold b1. destruct (decide (L' = L /\ P' = P)); [| tauto].
    split; [apply In_list_remove | apply In_list_remove_ne, Hne]. }
  assert (Hnd1 : forall L' P', List.NoDup (b1 L' P')).
  { intros L' P'. unfold b1. destruct (decide (L' = L /\ P' = P)); [| apply Hnd].
    apply NoDup_list_remove, Hnd. }
  assert (Hx : forall L' P', In x (bucket m' L' P') <-> (L' = L /\ P' = q)).
  { intros L' P'. rewrite Hb. destruct (decide (L' = L /\ P' = q)) as [Hq|Hq].
    - split; [intros _; exact Hq |]. intros _. apply in_or_app. right. left. reflexivity.
    - split; [intros Hin; destruct (Hx1 _ _ Hin) | tauto]. }
  assert (Hy : forall y L' P', y <> x -> (In y (bucket m' L' P') <-> In y (bucket m L' P'))).
  { intros y L' P' Hne. rewrite Hb, <- (Hy1 y L' P' Hne).
    destruct (decide (L' = L /\ P' = q)); [| tauto].
    rewrite in_app_iff. simpl. split; [intros [H | [H | []]]; [exact H | congruence] | tauto]. }
  split; [| split; assumption].
  split; [| split].
  - intros o L' P' Hin. destruct (decide (o = x)) as [->|Hne].
    + apply Hx in Hin. destruct Hin as [-> _]. exact HL.
    + apply (Hy _ _ _ Hne) in Hin. exact (Hlay _ _ _ Hin).
  - intros L' P'. rewrite Hb. destruct (decide (L' = L /\ P' = q)); [| apply Hnd1].
    apply List.NoDup_app; [apply Hnd1 | constructor; [intros [] | constructor] |].
    intros z Hz [<- | []]. exact (Hx1 _ _ Hz).
  - intros o L1 P1 L2 P2 H1 H2. destruct (decide (o = x)) as [->|Hne].
    + apply Hx in H1. apply Hx in H2. destruct H1 as [_ ->]. destruct H2 as [_ ->]. reflexivity.
    + apply (Hy _ _ _ Hne) in H1. apply (Hy _ _ _ Hne) in H2.
      exact (Huniq _ _ _ _ _ H1 H2).
Qed.

Lemma consistent_spec h m L P o :
  consistent h m = true -> In o (bucket m L P) ->
  List.NoDup (bucket m L P) /\ olayer h o = L /\ opos h o = P.
Proof.
  unfold consistent. rewrite forallb_forall. intros Hc Hin.
  specialize (Hc _ (bucket_iter _ _ _ _ Hin)). simpl in Hc.
  apply andb_true_iff in Hc. destruct Hc as [Hnd Hall].
  rewrite bool_decide_eq_true, NoDup_ListNoDup in Hnd. split; [exact Hnd |].
  rewrite forallb_forall in Hall. specialize (Hall _ Hin).
  apply andb_true_iff in Hall. destruct Hall as [H1 H2].
  rewrite bool_decide_eq_true in H1, H2. tauto.
Qed.

Lemma consistent_tidy h m :
  consistent h m = true ->
  tidy h m /\ (forall o L P, In o (bucket m L P) -> P = opos h o).
Proof.
  intros Hc. split; [split; [| split] |].
  - intros o L P Hin. destruct (consistent_spec _ _ _ _ _ Hc Hin) as (_ & H & _). congruence.
  - intros L P. destruct (bucket m L P) as [|o l] eqn:E; [constructor |].
    rewrite <- E. apply (consistent_spec h m L P o Hc). rewrite E. left. reflexivity.
  - intros o L P L' P' H1 H2.
    destruct (consistent_spec _ _ _ _ _ Hc H1) as (_ & _ & E1).
    destruct (consistent_spec _ _ _ _ _ Hc H2) as (_ & _ & E2). congruence.
  - intros o L P Hin. destruct (consistent_spec _ _ _ _ _ Hc Hin) as (_ & _ & E). congruence.
Qed.

(** Requests for pairwise different objects, none of them moved yet, keep
    the map tidy and lose no object. *)
Lemma apply_requests_tidy h rqs :
  forall m,
    tidy h m -> List.NoDup (List.map fst rqs) ->
    (forall o, In o (List.map fst rqs) -> forall L P, In o (bucket m L P) -> P = opos h o) ->
    tidy h (fold_left (apply_request h) rqs m)
    /\ (forall o, indexed m o \/ In o (List.map fst rqs) ->
                  indexed (fold_left (apply_request h) rqs m) o).
Proof.
  induction rqs as [|[x q] rqs IH]; intros m Ht Hnd Hhome; simpl.
  - split; [exact Ht |]. intros o [Hi | []]. exact Hi.
  - simpl in Hnd. inversion Hnd as [|? ? Hnot Hnd']; subst.
    destruct (put_tidy h m (olayer h x) (opos h x) x q Ht eq_refl) as (Ht1 & Hx & Hy).
    { intros L' P' Hin. exact (Hhome x (or_introl eq_refl) _ _ Hin). }
    destruct (IH (apply_request h m (x, q)) Ht1 Hnd') as [Ht2 Hidx].
    { intros o Ho L P Hin. assert (Hne : o <> x) by (intros ->; exact (Hnot Ho)).
      apply (Hhome o (or_intror Ho) L P). apply (Hy _ _ _ Hne). exact Hin. }
    split; [exact Ht2 |]. intros o Ho. apply Hidx.
    destruct (decide (o = x)) as [->|Hne].
    + left. exists (olayer h x), q. apply Hx. split; reflexivity.
    + destruct Ho as [(L & P & Hin) | [E | Ho]]; [| simpl in E; congruence | right; exact Ho].
      left. exists L, P. apply (Hy _ _ _ Hne). exact Hin.
Qed.

(** A property of the map that putting a collider back preserves holds
    when the loop ends. *)
Lemma resolve_invariant (I : t -> Prop) h :
  (forall m c x,
      wf m = true -> I m -> fetch h m = Some c -> In x (colliders c) ->
      opos h x <> position c ->
      I (add_obj (remove_obj m (layer c) (position c) x) (layer c) (opos h x) x)) ->
  forall fuel m collision unres r k res,
    wf m = true -> at_loop_test h m unres collision -> I m ->
    resolve fuel h m collision unres r k = Some res -> I (res_map res).
Proof.
  intros Hstep. induction fuel as [|fuel IH]; intros m collision unres r k res Hwf Hat HI;
    destruct collision as [c|]; simpl; try discriminate;
    try (intros [= <-]; exact HI).
  destruct Hat as [Hf | [Hn _]]; [| discriminate]. symmetry in Hf.
  destruct (attempt_spec h m c unres r Hwf Hf) as (m' & unres' & Ha & Hcase).
  rewrite Ha. destruct Hcase as [[x (Hin & Hx & -> & _ & _ & Hwf')] | (-> & -> & _ & Hre)].
  - apply IH; [exact Hwf' | apply refetch_at_loop_test |].
    exact (Hstep _ _ _ Hwf HI Hf Hin Hx).
  - rewrite Hre. destruct fuel; intros [= <-]; exact HI.
Qed.

Lemma put_back_tidy h m c x :
  wf m = true -> tidy h m -> fetch h m = Some c -> In x (colliders c) ->
  let m' := add_obj (remove_obj m (layer c) (position c) x) (layer c) (opos h x) x in
  tidy h m' /\ (forall o, indexed m o -> indexed m' o).
Proof.
  intros Hwf Ht Hf Hin m'. pose proof (fetch_in_bucket _ _ _ _ Hwf Hf Hin) as Hb.
  destruct Ht as (Hlay & Hnd & Huniq).
  destruct (put_tidy h m (layer c) (position c) x (opos h x) (conj Hlay (conj Hnd Huniq))
              (Hlay _ _ _ Hb)) as (Ht' & Hx & Hy).
  { intros L' P' Hin'. exact (Huniq _ _ _ _ _ Hin' Hb). }
  split; [exact Ht' |]. intros o (L & P & Ho).
  destruct (decide (o = x)) as [->|Hne].
  - exists (layer c), (opos h x). apply Hx. split; reflexivity.
  - exists L, P. apply (Hy _ _ _ Hne). exact Ho.
Qed.

(** *** The final loop over the map *)

Lemma reconcile_flat h m :
  reconcile h m
  = fold_left (fun h a => heap_set_position h (fst a) (snd a))
      (flat_map (fun e => List.map (fun o => (o, snd (fst e))) (snd e)) (iter m)) h.
Proof.
  unfold reconcile. generalize (iter m). intros es. revert h.
  induction es as [|e es IH]; intros h; simpl; [reflexivity |].
  rewrite fold_left_app, IH. f_equal.
  generalize (snd e). intros l. revert h.
  induction l as [|o l IHl]; intros h; simpl; [reflexivity | apply IHl].
Qed.

Lemma assignments_position (l : list (ref * option pos)) o P :
  forall h, (exists P0, In (o, P0) l) -> (forall P', In (o, P') l -> P' = P) ->
    opos (fold_left (fun h a => heap_set_position h (fst a) (snd a)) l h) o = P.
Proof.
  induction l as [|[y Q] l IH] using rev_ind; intros h [P0 Hin] Hall; [destruct Hin |].
  rewrite fold_left_app. simpl. unfold heap_set_position at 1.
  destruct (decide (o = y)) as [->|Hne].
  - simpl. apply Hall. apply in_or_app. right. left. reflexivity.
  - apply IH.
    + exists P0. apply in_app_or in Hin. destruct Hin as [H | [E | []]]; [exact H | congruence].
    + intros P' H'. apply Hall. apply in_or_app. left. exact H'.
Qed.

Lemma reconcile_position h m o L P :
  wf m = true -> tidy h m -> In o (bucket m L P) -> opos (reconcile h m) o = P.
Proof.
  intros Hwf (_ & _ & Huniq) Hin. rewrite reconcile_flat. apply assignments_position.
  - exists P. apply in_flat_map. exists (L, P, bucket m L P).
    split; [exact (bucket_iter _ _ _ _ Hin) |]. simpl.
    apply in_map_iff. exists o. split; [reflexivity | exact Hin].
  - intros P' H'. apply in_flat_map in H'. destruct H' as [[[L1 P1] l1] [He Hm]].
    simpl in Hm. apply in_map_iff in Hm. destruct Hm as [o' [E Ho']].
    inversion E; subst. rewrite <- (iter_bucket _ _ _ _ Hwf He) in Ho'.
    exact (Huniq _ _ _ _ _ Ho' Hin).
Qed.

(** *** What the rebuild of [__draw_game_objects] establishes *)

Lemma consistent_intro h m :
  wf m = true ->
  (forall o L P, In o (bucket m L P) -> L = olayer h o /\ P = opos h o) ->
  (forall L P, List.NoDup (bucket m L P)) ->
  consistent h m = true.
Proof.
  intros Hwf Hplace Hnd. unfold consistent. apply forallb_forall.
  intros [[L P] l] He. rewrite <- (iter_bucket _ _ _ _ Hwf He).
  apply andb_true_iff. split.
  - apply bool_decide_eq_true. apply NoDup_ListNoDup. apply Hnd.
  - apply forallb_forall. intros o Ho. destruct (Hplace _ _ _ Ho) as [-> ->].
    rewrite !bool_decide_eq_true_2 by reflexivity. reflexivity.
Qed.

Lemma rebuild_invariant h (act : list (Z * ref)) :
  let step := fun (m : t) (e : Z * ref) =>
                if GameObject.collider (GameObject.collision (h (snd e)))
                then add_obj m (olayer h (snd e)) (opos h (snd e)) (snd e)
                else m in
  forall m,
    wf m = true ->
    (forall o L P, In o (bucket m L P) -> L = olayer h o /\ P = opos h o) ->
    (forall L P, List.NoDup (bucket m L P)) ->
    (forall o L P, In o (bucket m L P) -> ~ In o (List.map snd act)) ->
    List.NoDup (List.map snd act) ->
    wf (fold_left step act m) = true
    /\ (forall o L P, In o (bucket (fold_left step act m) L P) ->
                      L = olayer h o /\ P = opos h o)
    /\ (forall L P, List.NoDup (bucket (fold_left step act m) L P))
    /\ (forall o,
          indexed m o
          \/ (In o (List.map snd act)
              /\ GameObject.collider (GameObject.collision (h o)) = true) ->
          indexed (fold_left step act m) o).
Proof.
  intros step. induction act as [|[i x] act IH]; intros m Hwf Hplace Hnd Hfresh Hact; simpl.
  - split; [exact Hwf |]. split; [exact Hplace |]. split; [exact Hnd |].
    intros o [Hi | [[] _]]. exact Hi.
  - simpl in Hact. inversion Hact as [|? ? Hx Hact']; subst.
    assert (Hstep : forall o L P,
               In o (bucket (step m (i, x)) L P) -> In o (bucket m L P) \/ o = x).
    { intros o L P. unfold step. simpl.
      destruct (GameObject.collider (GameObject.collision (h x))); [| tauto].
      unfold add_obj. rewrite bucket_at_bucket.
      destruct (decide (L = olayer h x /\ P = opos h x)) as [[-> ->]|]; [| tauto].
      rewrite in_app_iff. simpl. intuition congruence. }
    destruct (IH (step m (i, x))) as (Hwf' & Hplace' & Hnd' & Hidx'); try assumption.
    + unfold step. simpl.
      destruct (GameObject.collider (GameObject.collision (h x))); [| exact Hwf].
      apply wf_add_obj, Hwf.
    + intros o L P Hin. destruct (Hstep _ _ _ Hin) as [Hold | ->]; [exact (Hplace _ _ _ Hold) |].
      revert Hin. unfold step. simpl.
      destruct (GameObject.collider (GameObject.collision (h x))).
      * unfold add_obj. rewrite bucket_at_bucket.
        destruct (decide (L = olayer h x /\ P = opos h x)) as [HLP|]; [intros _; exact HLP |].
        intros Hin. exfalso. apply (Hfresh _ _ _ Hin). left. reflexivity.
      * intros Hin. exfalso. apply (Hfresh _ _ _ Hin). left. reflexivity.
    + intros L P. unfold step. simpl.
      destruct (GameObject.collider (GameObject.collision (h x))); [| apply Hnd].
      unfold add_obj. rewrite bucket_at_bucket.
      destruct (decide (L = olayer h x /\ P = opos h x)); [| apply Hnd].
      apply List.NoDup_app; [apply Hnd | constructor; [intros [] | constructor] |].
      intros z Hz [<- | []]. apply (Hfresh _ _ _ Hz). left. reflexivity.
    + intros o L P Hin Ho. destruct (Hstep _ _ _ Hin) as [Hold | ->]; [| exact (Hx Ho)].
      apply (Hfresh _ _ _ Hold). right. exact Ho.
    + split; [exact Hwf' |]. split; [exact Hplace' |]. split; [exact Hnd' |].
      intros o Ho. apply Hidx'.
      destruct Ho as [(L & P & Hin) | [[E | Ho] Hc]].
      * left. exists L, P. unfold step. simpl.
        destruct (GameObject.collider (GameObject.collision (h x))); [| exact Hin].
        unfold add_obj. rewrite bucket_at_bucket.
        destruct (decide (L = olayer h x /\ P = opos h x)) as [[-> ->]|]; [| exact Hin].
        apply in_or_app. left. exact Hin.
      * simpl in E. subst o. left. exists (olayer h x), (opos h x).
        unfold step. simpl. rewrite Hc. unfold add_obj. rewrite bucket_at_bucket.
        destruct (decide (olayer h x = olayer h x /\ opos h x = opos h x)); [| tauto].
        apply in_or_app. right. left. reflexivity.
      * right. split; assumption.
Qed.

(** After a drawn frame the map has one entry per key, lists every active
    collider, and lists every object once and where it is recorded: the
    state from which the move phase keeps the map and the position fields
    in agreement. *)
Lemma draw_game_objects_consistent (g : TermGame) :
  List.NoDup (List.map snd (active_objects g)) ->
  let g' := draw_game_objects g in
  wf (collision_map g') = true
  /\ consistent (objects g') (collision_map g') = true
  /\ forall o, In o (List.map snd (active_objects g)) ->
               GameObject.collider (GameObject.collision (objects g o)) = true ->
               indexed (collision_map g') o.
Proof.
  intros Hact g'.
  destruct (rebuild_invariant (objects g) (active_objects g) []) as (Hwf & Hplace & Hnd & Hidx);
    try assumption; try reflexivity.
  - intros o L P Hin. unfold bucket, dfind in Hin. simpl in Hin. destruct Hin.
  - intros L P. constructor.
  - intros o L P Hin. unfold bucket, dfind in Hin. simpl in Hin. destruct Hin.
  - unfold g', draw_game_objects. simpl. split; [exact Hwf |]. split.
    + apply consistent_intro; assumption.
    + intros o Ho Hc. apply Hidx. right. split; assumption.
Qed.

(** C1, refuted.  Object 5, a collider recorded at [(0, 0)] and listed
    there, is asked to move twice in one tick.  The drain takes it out of
    its recorded bucket for the first request consumed only; the second
    leaves a second copy.  After the phase it is listed both at [(2, 2)]
    and at [(1, 1)], and its position field is [(1, 1)]. *)
Lemma double_request_counterexample :
  let g := Scenario.game 3 3 Scenario.lonely Scenario.lonely_map [(5%Z, 5)]
             [(5, Some (1, 1)%Z); (5, Some (2, 2)%Z)] in
  GameObject.collider (GameObject.collision (objects g 5)) = true
  /\ GameObject.position (objects g 5) = Some (0, 0)%Z
  /\ wf (collision_map g) = true
  /\ consistent (objects g) (collision_map g) = true
  /\ exists g',
       move_objects 2 g = Some (g', [])
       /\ collision_map g'
          = [(0%Z, [(Some (0, 0)%Z, []); (Some (2, 2)%Z, [5]); (Some (1, 1)%Z, [5])])]
       /\ In 5 (bucket (collision_map g') 0 (Some (2, 2)%Z))
       /\ In 5 (bucket (collision_map g') 0 (Some (1, 1)%Z))
       /\ GameObject.position (objects g' 5) = Some (1, 1)%Z.
Proof.
  simpl. repeat (split; [reflexivity |]).
  eexists. split; [reflexivity |]. split; [reflexivity |].
  split; [left; reflexivity |]. split; [left; reflexivity | reflexivity].
Qed.

(** C1, amended.  Take a map with one entry per key in which every listed
    object is listed once, in the bucket of its own layer and recorded
    position, and a queue with at most one request per object.  Then
    [__move_objects] returns, and every object that was listed or
    requested (so every collider with a position that the rebuild had
    listed) is afterwards listed in exactly one bucket, once, and the
    position of that bucket is the object's position field. *)
Theorem index_agrees_with_positions (g : TermGame)
    (Hwf : wf (collision_map g) = true)
    (Hcons : consistent (objects g) (collision_map g) = true)
    (Hreq : List.NoDup (List.map fst (move_requests g))) :
  exists n, forall fuel, n <= fuel ->
    exists g' notes,
      move_objects fuel g = Some (g', notes)
      /\ forall o,
           indexed (collision_map g) o \/ In o (List.map fst (move_requests g)) ->
           exists L P,
             In o (bucket (collision_map g') L P)
             /\ List.NoDup (bucket (collision_map g') L P)
             /\ (forall L' P', In o (bucket (collision_map g') L' P') -> L' = L /\ P' = P)
             /\ GameObject.position (objects g' o) = P.
Proof.
  destruct (consistent_tidy _ _ Hcons) as [Ht Hhome].
  set (h := objects g) in *. set (m := collision_map g) in *.
  set (m1 := fold_left (apply_request h) (rev (move_requests g)) m).
  exists (length (move_requests g) + misplaced h m1 + 1). intros fuel Hfuel.
  assert (Hq : move_requests g = [] \/ move_requests g <> [])
    by (destruct (move_requests g); [left | right]; congruence).
  destruct Hq as [Hq | Hq].
  - exists g, []. unfold move_objects. rewrite Hq.
    split; [reflexivity |]. intros o [(L & P & Hin) | []].
    destruct Ht as (Hlay & Hnd & Huniq). exists L, P. fold m.
    split; [exact Hin |]. split; [apply Hnd |]. split.
    + intros L' P' Hin'. split; [| exact (Huniq _ _ _ _ _ Hin' Hin)].
      rewrite (Hlay _ _ _ Hin'), (Hlay _ _ _ Hin). reflexivity.
    + fold h. symmetry. exact (Hhome _ _ _ Hin).
  - rewrite (move_objects_queued _ _ Hq).
    rewrite (drain_spec (move_requests g) fuel g eq_refl) by lia.
    simpl. fold h. fold m. fold m1.
    assert (Hwf1 : wf m1 = true) by (apply wf_apply_requests; exact Hwf).
    destruct (resolve_total h fuel m1 (fetch h m1) [] [] 0 Hwf1 (or_introl eq_refl))
      as (res & Hres & _ & Hwfr & _); [lia | constructor |].
    rewrite Hres. eexists. eexists. split; [reflexivity |]. simpl.
    intros o Ho.
    destruct (apply_requests_tidy h (rev (move_requests g)) m Ht) as [Ht1 Hidx1].
    { rewrite List.map_rev. apply List.NoDup_rev. exact Hreq. }
    { intros o' Ho' L P Hin. exact (Hhome _ _ _ Hin). }
    assert (Ho1 : indexed m1 o).
    { apply Hidx1. destruct Ho as [Ho | Ho]; [left; exact Ho | right].
      rewrite List.map_rev, <- in_rev. exact Ho. }
    assert (HI : tidy h (res_map res) /\ indexed (res_map res) o).
    { apply (resolve_invariant (fun m => tidy h m /\ indexed m o) h) with
        (fuel := fuel) (m := m1) (collision := fetch h m1) (unres := [])
        (r := []) (k := 0); try assumption.
      - intros m0 c x Hwf0 [Ht0 Hi0] Hf Hin _.
        destruct (put_back_tidy h m0 c x Hwf0 Ht0 Hf Hin) as [Ht' Hi'].
        split; [exact Ht' | exact (Hi' _ Hi0)].
      - left. reflexivity.
      - split; assumption. }
    destruct HI as [Htr (L & P & Hin)]. exists L, P.
    pose proof Htr as (Hlay & Hnd & Huniq).
    split; [exact Hin |]. split; [apply Hnd |]. split.
    + intros L' P' Hin'. split; [| exact (Huniq _ _ _ _ _ Hin' Hin)].
      rewrite (Hlay _ _ _ Hin'), (Hlay _ _ _ Hin). reflexivity.
    + exact (reconcile_position _ _ _ _ _ Hwfr Htr Hin).
Qed.

(** Objects 1 and 2 on [(1, 1)], each with one request, to different cells. *)
Lemma index_agrees_with_positions_witness :
  exists n, forall fuel, n <= fuel ->
    exists g' notes,
      move_objects fuel
        (Scenario.game 3 3 Scenario.crowd Scenario.one_layer [(1%Z, 1); (2%Z, 2)]
           [(1, Some (0, 0)%Z); (2, Some (3, 3)%Z)]) = Some (g', notes)
      /\ forall o,
           indexed Scenario.one_layer o \/ In o [1; 2] ->
           exists L P,
             In o (bucket (collision_map g') L P)
             /\ List.NoDup (bucket (collision_map g') L P)
             /\ (forall L' P', In o (bucket (collision_map g') L' P') -> L' = L /\ P' = P)
             /\ GameObject.position (objects g' o) = P.
Proof.
  apply (index_agrees_with_positions
           (Scenario.game 3 3 Scenario.crowd Scenario.one_layer [(1%Z, 1); (2%Z, 2)]
              [(1, Some (0, 0)%Z); (2, Some (3, 3)%Z)])).
  - reflexivity.
  - reflexivity.
  - apply NoDup_ListNoDup. simpl. apply (bool_decide_unpack _). vm_compute. exact I.
Defined.
End Agreement.


(** ** Path search: termination and the untraced target *)
Section PathSearch.
Import TermGame.
Implicit Types (p q : pos) (st : search).

Lemma in_zrange (n z : Z) :
  In z (List.map Z.of_nat (seq 0 (Z.to_nat (n + 1)))) <-> (0 <= z <= n)%Z.
Proof.
  rewrite in_map_iff. split.
  - intros [k [<- Hk]]. apply in_seq in Hk. lia.
  - intros Hz. exists (Z.to_nat z). split; [lia |]. apply in_seq. lia.
Qed.

Lemma In_cells max_y max_x p : In p (cells max_y max_x) <-> in_bounds max_y max_x p = true.
Proof.
  destruct p as [y x]. unfold cells, in_bounds. simpl.
  rewrite !andb_true_iff, !Z.leb_le. split.
  - intros H. apply in_prod_iff in H. rewrite !in_zrange in H. tauto.
  - intros H. apply in_prod_iff. rewrite !in_zrange. tauto.
Qed.

Lemma get_neighbors_in_bounds p max_y max_x q :
  In q (get_neighbors p max_y max_x) -> in_bounds max_y max_x q = true.
Proof.
  destruct p as [y x]. unfold get_neighbors. rewrite filter_In. intros [_ Hq].
  unfold in_bounds. destruct q as [qy qx]. simpl in *.
  destruct (qy <? 0)%Z eqn:E1; [discriminate |].
  destruct (max_y <? qy)%Z eqn:E2; [discriminate |].
  destruct (qx <? 0)%Z eqn:E3; [discriminate |].
  destruct (max_x <? qx)%Z eqn:E4; [discriminate |].
  rewrite !andb_true_iff, !Z.leb_le. lia.
Qed.

Lemma In_put item block (l : list pos) p : In p (put item block l) <-> p = item \/ In p l.
Proof.
  induction l as [|x l IH]; simpl; [intuition congruence |].
  destruct (pos_le item x); simpl; [intuition congruence |].
  rewrite IH. intuition congruence.
Qed.

Lemma length_put item block (l : list pos) : length (put item block l) = S (length l).
Proof.
  induction l as [|x l IH]; simpl; [reflexivity |].
  destruct (pos_le item x); simpl; [reflexivity | rewrite IH; reflexivity].
Qed.

Lemma list_sum_map_le (f f' : pos -> nat) (l : list pos) :
  (forall p, In p l -> f' p <= f p) ->
  list_sum (List.map f' l) <= list_sum (List.map f l).
Proof.
  induction l as [|x l IH]; simpl; intros H; [lia |].
  pose proof (H x (or_introl eq_refl)). pose proof (IH (fun p Hp => H p (or_intror Hp))). lia.
Qed.

Lemma list_sum_map_lt (f f' : pos -> nat) (l : list pos) q :
  (forall p, In p l -> f' p <= f p) -> In q l -> f' q < f q ->
  list_sum (List.map f' l) < list_sum (List.map f l).
Proof.
  induction l as [|x l IH]; simpl; intros H Hin Hq; [destruct Hin |].
  pose proof (H x (or_introl eq_refl)) as Hx.
  pose proof (list_sum_map_le f f' l (fun p Hp => H p (or_intror Hp))) as Hl.
  destruct Hin as [-> | Hin]; [lia |].
  pose proof (IH (fun p Hp => H p (or_intror Hp)) Hin Hq). lia.
Qed.

Lemma lex_le_trans a1 w1 a2 w2 a3 w3 :
  lex_le a1 w1 a2 w2 -> lex_le a2 w2 a3 w3 -> lex_le a1 w1 a3 w3.
Proof. unfold lex_le. lia. Qed.

Lemma insert_is_Some {V} (mp : gmap pos V) (k p : pos) (v : V) :
  is_Some (<[k := v]> mp !! p) <-> p = k \/ is_Some (mp !! p).
Proof.
  destruct (decide (p = k)) as [->|Hne].
  - rewrite lookup_insert_eq. split; [left; reflexivity | intros _; eexists; reflexivity].
  - rewrite lookup_insert_ne by congruence. tauto.
Qed.

(** One neighbor: the search state stays well formed and does not rise in
    the order that pairs the unassigned positions with the weight. *)
Lemma visit_spec (l : list pos) start target current st nb :
  search_ok l st -> is_Some (cost_so_far st !! current) -> In nb l ->
  exists st',
    visit start target current st nb = Ok st'
    /\ search_ok l st'
    /\ is_Some (cost_so_far st' !! current)
    /\ lex_le (unassigned (cost_so_far st') l) (weight st' l)
              (unassigned (cost_so_far st) l) (weight st l).
Proof.
  intros (Hfr & Hcost & Hcame) [c Hc] Hnb. unfold visit. rewrite Hc.
  set (inserted := mkSearch _ _ _).
  assert (Hok : search_ok l inserted).
  { unfold inserted. split; [| split]; simpl.
    - intros p Hp. apply insert_is_Some. apply In_put in Hp.
      destruct Hp as [-> | Hp]; [left; reflexivity | right; exact (Hfr _ Hp)].
    - intros p Hp. apply insert_is_Some in Hp. destruct Hp as [-> | Hp]; [exact Hnb | exact (Hcost _ Hp)].
    - intros p Hp. apply insert_is_Some in Hp. destruct Hp as [-> | Hp]; [exact Hnb | exact (Hcame _ Hp)]. }
  assert (Hcur : is_Some (cost_so_far inserted !! current)).
  { unfold inserted. simpl. apply insert_is_Some. right. eexists. exact Hc. }
  destruct (cost_so_far st !! nb) as [old|] eqn:Hold.
  - destruct (c + 1 <? old) eqn:Hlt.
    + exists inserted. split; [reflexivity |]. split; [exact Hok |]. split; [exact Hcur |].
      apply Nat.ltb_lt in Hlt. unfold lex_le. right. split.
      * unfold inserted, unassigned. simpl. f_equal. apply map_ext. intros p.
        destruct (decide (p = nb)) as [->|Hne].
        -- rewrite lookup_insert_eq, Hold. reflexivity.
        -- rewrite lookup_insert_ne by congruence. reflexivity.
      * unfold weight, inserted. simpl. rewrite length_put.
        assert (total_cost (<[nb := c + 1]> (cost_so_far st)) l < total_cost (cost_so_far st) l).
        { unfold total_cost. apply list_sum_map_lt with (q := nb); [| exact Hnb |].
          - intros p _. destruct (decide (p = nb)) as [->|Hne].
            + rewrite lookup_insert_eq, Hold. lia.
            + rewrite lookup_insert_ne by congruence. lia.
          - rewrite lookup_insert_eq, Hold. exact Hlt. }
        lia.
    + exists st. split; [reflexivity |]. split; [exact (conj Hfr (conj Hcost Hcame)) |].
      split; [eexists; exact Hc |].
      unfold lex_le. right. split; [reflexivity | lia].
  - exists inserted. split; [reflexivity |]. split; [exact Hok |]. split; [exact Hcur |].
    unfold lex_le. left. unfold inserted, unassigned. simpl.
    apply list_sum_map_lt with (q := nb); [| exact Hnb |].
    + intros p _. destruct (decide (p = nb)) as [->|Hne].
      * rewrite lookup_insert_eq, Hold. lia.
      * rewrite lookup_insert_ne by congruence. lia.
    + rewrite lookup_insert_eq, Hold. lia.
Qed.

Lemma visit_all_spec (l : list pos) start target current nbs :
  forall st,
    search_ok l st -> is_Some (cost_so_far st !! current) ->
    (forall nb, In nb nbs -> In nb l) ->
    exists st',
      visit_all start target current st nbs = Ok st'
      /\ search_ok l st'
      /\ lex_le (unassigned (cost_so_far st') l) (weight st' l)
                (unassigned (cost_so_far st) l) (weight st l).
Proof.
  induction nbs as [|nb nbs IH]; intros st Hok Hcur Hin; simpl.
  - exists st. split; [reflexivity |]. split; [exact Hok |].
    unfold lex_le. right. split; [reflexivity | lia].
  - destruct (visit_spec l start target current st nb Hok Hcur (Hin _ (or_introl eq_refl)))
      as (st1 & -> & Hok1 & Hcur1 & Hle1).
    destruct (IH st1 Hok1 Hcur1 (fun q Hq => Hin q (or_intror Hq)))
      as (st2 & -> & Hok2 & Hle2).
    exists st2. split; [reflexivity |]. split; [exact Hok2 |].
    exact (lex_le_trans _ _ _ _ _ _ Hle2 Hle1).
Qed.

(** The search loop returns, without raising, whatever the target. *)
Lemma explore_total max_y max_x start target :
  let l := reachable_keys max_y max_x start in
  forall a w st,
    search_ok l st -> unassigned (cost_so_far st) l = a -> weight st l = w ->
    exists n, forall fuel, n <= fuel ->
      exists st', explore fuel max_y max_x start target st = Some (Ok st')
                  /\ search_ok l st'.
Proof.
  intros l a. induction a as [a IHa] using lt_wf_ind.
  intros w. induction w as [w IHw] using lt_wf_ind.
  intros st Hok Ha Hw.
  destruct (frontier st) as [|current rest] eqn:Hfr.
  - exists 0. intros fuel _. exists st. split; [| exact Hok].
    destruct fuel; simpl; rewrite Hfr; reflexivity.
  - set (st1 := mkSearch rest (came_from st) (cost_so_far st)).
    assert (Hok1 : search_ok l st1).
    { destruct Hok as (H1 & H2 & H3). split; [| split]; simpl; try assumption.
      intros p Hp. apply H1. rewrite Hfr. right. exact Hp. }
    destruct (decide (current = target)) as [Heq|Hne].
    + exists 1. intros fuel Hfuel. destruct fuel as [|fuel]; [lia |].
      exists st1. simpl. rewrite Hfr. simpl.
      destruct (decide (current = target)); [| contradiction]. split; [reflexivity | exact Hok1].
    + assert (Hcur : is_Some (cost_so_far st1 !! current)).
      { simpl. apply (proj1 Hok). rewrite Hfr. left. reflexivity. }
      destruct (visit_all_spec l start target current (get_neighbors current max_y max_x)
                  st1 Hok1 Hcur) as (st2 & Hv & Hok2 & Hle).
      { intros nb Hnb. right. apply In_cells. exact (get_neighbors_in_bounds _ _ _ _ Hnb). }
      assert (Hw1 : weight st1 l < w).
      { rewrite <- Hw. unfold weight, st1. simpl. rewrite Hfr. simpl. lia. }
      assert (Hrec : exists n, forall fuel, n <= fuel ->
                  exists st', explore fuel max_y max_x start target st2 = Some (Ok st')
                              /\ search_ok l st').
      { unfold lex_le in Hle. destruct Hle as [Hlt | [Heq Hlew]].
        - apply (IHa (unassigned (cost_so_far st2) l)) with (w := weight st2 l);
            [| exact Hok2 | reflexivity | reflexivity].
          simpl in Hlt. lia.
        - apply (IHw (weight st2 l)); [lia | exact Hok2 | | reflexivity].
          simpl in Heq. lia. }
      destruct Hrec as [n Hn]. exists (S n). intros fuel Hfuel.
      destruct fuel as [|fuel]; [lia |]. simpl. rewrite Hfr. simpl.
      destruct (decide (current = target)); [contradiction |].
      fold st1. rewrite Hv. apply Hn. lia.
Qed.



End PathSearch.


(** * Further properties *)

(** ** The collision map as a container *)
Section CollisionMapApi.
Import CollisionMap Notions.
Implicit Types (h : heap) (m : t) (o x : ref) (l : list ref).

Local Abbreviation rigid h :=
  (fun game_obj => GameObject.rigidbody (GameObject.collision (h game_obj))).

(** X1.  [add_obj] appends the object to the bucket it names, creating the
    layer and the bucket when they are missing and keeping an occurrence
    that is already there; every other bucket reads as before. *)
Theorem add_obj_lookup m L P o L' P' :
  bucket (add_obj m L P o) L' P'
  = if decide (L' = L /\ P' = P) then bucket m L P ++ [o] else bucket m L' P'.
Proof. unfold add_obj. apply bucket_at_bucket. Qed.

(** X2.  [remove_obj] takes exactly one occurrence of the object out of
    the bucket it names, none when the object is not there, and changes no
    other count in any bucket. *)
Theorem remove_obj_counts m L P o L' P' x :
  count_occ Nat.eq_dec (bucket (remove_obj m L P o) L' P') x
  = if decide (L' = L /\ P' = P /\ x = o)
    then pred (count_occ Nat.eq_dec (bucket m L P) o)
    else count_occ Nat.eq_dec (bucket m L' P') x.
Proof.
  unfold remove_obj. rewrite bucket_at_bucket.
  destruct (decide (L' = L /\ P' = P)) as [[-> ->]|Hn].
  - destruct (in_dec Nat.eq_dec o (bucket m L P)) as [Hin|Hnin].
    + rewrite count_occ_list_remove. destruct (decide (x = o)) as [->|Hx].
      * destruct (decide (L = L /\ P = P /\ o = o)); [reflexivity | tauto].
      * destruct (decide (L = L /\ P = P /\ x = o)); [tauto | reflexivity].
    + destruct (decide (L = L /\ P = P /\ x = o)) as [(_ & _ & ->)|]; [| reflexivity].
      apply (count_occ_not_In Nat.eq_dec) in Hnin. rewrite Hnin. reflexivity.
  - destruct (decide (L' = L /\ P' = P /\ x = o)); [tauto | reflexivity].
Qed.

Lemma iter_at_bucket f L P m : In (L, P, f (bucket m L P)) (iter (at_bucket f L P m)).
Proof.
  apply iter_spec. unfold at_bucket, bucket.
  exists (dupd P [] f (dfind L [] m)). split.
  - apply dget_In. rewrite dget_dupd. destruct (decide (L = L)); [reflexivity | congruence].
  - apply dget_In. rewrite dget_dupd. destruct (decide (P = P)); [reflexivity | congruence].
Qed.

(** X3.  Reading [self.map[layer][position]] creates what is missing, so
    [remove_obj] leaves an entry for the bucket it was asked about even
    when the object was never there; on an empty map the result is the
    one empty bucket. *)
Theorem remove_obj_materialises m L P o :
  In (L, P, list_remove o (bucket m L P)) (iter (remove_obj m L P o))
  /\ remove_obj [] L P o = [(L, [(P, [])])].
Proof.
  split; [| reflexivity].
  pose proof (iter_at_bucket
                (fun l => if in_dec Nat.eq_dec o l then list_remove o l else l) L P m) as H.
  simpl in H. destruct (in_dec Nat.eq_dec o (bucket m L P)) as [_|Hn]; [exact H |].
  rewrite (list_remove_absent _ _ Hn). exact H.
Qed.

Lemma list_remove_snoc o l : ~ In o l -> list_remove o (l ++ [o]) = l.
Proof.
  induction l as [|y l IH]; simpl; intros Hn.
  - destruct (decide (o = o)); [reflexivity | congruence].
  - destruct (decide (o = y)) as [->|Hne]; [tauto |]. rewrite IH; [reflexivity | tauto].
Qed.

Lemma bucket_add_remove m L P o :
  ~ In o (bucket m L P) ->
  forall L' P', bucket (remove_obj (add_obj m L P o) L P o) L' P' = bucket m L' P'.
Proof.
  intros Hfresh L' P'. unfold remove_obj, add_obj. rewrite !bucket_at_bucket.
  destruct (decide (L' = L /\ P' = P)) as [[-> ->]|Hn]; [| reflexivity].
  destruct (decide (L = L /\ P = P)); [| tauto].
  destruct (in_dec Nat.eq_dec o (bucket m L P ++ [o])) as [_|Hnin].
  - apply list_remove_snoc, Hfresh.
  - exfalso. apply Hnin. apply in_or_app. right. left. reflexivity.
Qed.

(** X4.  Adding an object that the bucket does not hold and removing it
    again gives every bucket its former content. *)
Theorem add_then_remove m L P o (Hfresh : ~ In o (bucket m L P)) :
  forall L' P', bucket (remove_obj (add_obj m L P o) L P o) L' P' = bucket m L' P'.
Proof. exact (bucket_add_remove m L P o Hfresh). Qed.

Lemma add_then_remove_witness :
  bucket (remove_obj (add_obj Scenario.one_layer 0 (Some (1, 1)%Z) 9) 0 (Some (1, 1)%Z) 9)
         0 (Some (1, 1)%Z)
  = [1; 2].
Proof.
  apply (add_then_remove Scenario.one_layer 0 (Some (1, 1)%Z) 9).
  simpl. intros [H | [H | []]]; discriminate.
Defined.

(** X5.  [__detect_collisions] reports exactly the entries of the map that
    list more than one object, with the whole list as colliders. *)
Theorem detect_collisions_spec m c :
  In c (detect_collisions m)
  <-> In (layer c, position c, colliders c) (iter m) /\ 1 < length (colliders c).
Proof.
  unfold detect_collisions. rewrite in_flat_map. split.
  - intros [[[L P] l] [Hin Hc]]. destruct (1 <? length l) eqn:E; [| destruct Hc].
    destruct Hc as [<- | []]. simpl. apply Nat.ltb_lt in E. split; assumption.
  - intros [Hin Hlen]. exists (layer c, position c, colliders c). split; [exact Hin |].
    apply Nat.ltb_lt in Hlen. rewrite Hlen. left. destruct c; reflexivity.
Qed.

Lemma rb_scan_none h cs acc :
  rb_scan h None None true cs acc = None
  <-> forall c0, In c0 cs -> length (List.filter (rigid h) (colliders c0)) <= 1.
Proof.
  induction cs as [|c0 cs IH]; simpl; [split; [intros _ c [] | reflexivity] |].
  destruct (1 <? length (List.filter (rigid h) (colliders c0))) eqn:E.
  - apply Nat.ltb_lt in E. split; [discriminate |].
    intros H. specialize (H c0 (or_introl eq_refl)). lia.
  - apply Nat.ltb_ge in E. rewrite IH. split.
    + intros H c [<- | Hc]; [exact E | exact (H _ Hc)].
    + intros H c Hc. apply H. right. exact Hc.
Qed.

Lemma fetch_none_calm h m : get_rb_collisions h m None None true = None <-> calm h m = true.
Proof.
  unfold get_rb_collisions, calm. rewrite rb_scan_none, forallb_forall. split.
  - intros H [[L P] l] Hin. simpl. apply Nat.leb_le.
    destruct (Nat.le_gt_cases (length l) 1) as [Hl | Hl].
    + pose proof (List.filter_length_le (rigid h) l). lia.
    + apply (H (mkCollision L P l)). unfold detect_collisions. apply in_flat_map.
      exists (L, P, l). split; [exact Hin |]. apply Nat.ltb_lt in Hl. rewrite Hl.
      left. reflexivity.
  - intros H c0 Hc0. apply detect_collisions_iter in Hc0.
    specialize (H _ Hc0). simpl in H. apply Nat.leb_le in H. exact H.
Qed.

(** X6.  Asked for a single collision without a layer or a position,
    [get_rb_collisions] answers [None] exactly when no bucket holds two
    rigidbodies; otherwise its answer names a bucket of the map and lists
    the rigidbodies of that bucket, at least two, in bucket order. *)
Theorem get_rb_collisions_single h m :
  (get_rb_collisions h m None None true = None <-> calm h m = true)
  /\ forall c, get_rb_collisions h m None None true = Some c ->
       exists l, In (layer c, position c, l) (iter m)
                 /\ colliders c = List.filter (rigid h) l
                 /\ 1 < length (colliders c).
Proof.
  split; [apply fetch_none_calm |].
  intros c Hc. unfold get_rb_collisions in Hc.
  destruct (rb_scan_single _ _ _ _ Hc) as [c0 (Hin & -> & Hl)].
  exists (colliders c0). split; [exact (detect_collisions_iter _ _ Hin) |].
  split; [reflexivity | exact Hl].
Qed.

Lemma get_rb_collisions_single_witness :
  calm Cases.neighbours Cases.neighbours_map = true
  /\ get_rb_collisions Cases.neighbours Cases.neighbours_map None None true = None.
Proof.
  split; [reflexivity |].
  apply (proj1 (get_rb_collisions_single Cases.neighbours Cases.neighbours_map)).
  reflexivity.
Defined.

Lemma rb_scan_filters h sl sp single cs acc c :
  rb_scan h sl sp single cs acc = Some c ->
  (layer_truthy sl = true -> Some (layer c) = sl)
  /\ (position_truthy sp = true -> position c = sp).
Proof.
  revert acc. induction cs as [|c0 cs IH]; intros acc; simpl; [discriminate |].
  destruct (layer_truthy sl && negb (bool_decide (Some (layer c0) = sl))) eqn:EL;
    [apply IH |].
  destruct (position_truthy sp && negb (bool_decide (position c0 = sp))) eqn:EP;
    [apply IH |].
  destruct (1 <? length (List.filter (rigid h) (colliders c0))); [| apply IH].
  destruct single; [| apply IH]. intros [= <-]. simpl. split.
  - intros Ht. rewrite Ht in EL. simpl in EL. apply negb_false_iff in EL.
    apply bool_decide_eq_true in EL. exact EL.
  - intros Ht. rewrite Ht in EP. simpl in EP. apply negb_false_iff in EP.
    apply bool_decide_eq_true in EP. exact EP.
Qed.

(** X7.  A position argument and a layer argument other than 0 restrict
    what [get_rb_collisions] can return to that bucket; a layer argument
    of 0 is read as no layer argument, for every map. *)
Theorem get_rb_collisions_filters h m layer position single :
  (forall c, get_rb_collisions h m layer position single = Some c ->
     (forall p, position = Some p -> CollisionMap.position c = Some p)
     /\ (forall z, layer = Some z -> z <> 0%Z -> CollisionMap.layer c = z))
  /\ get_rb_collisions h m (Some 0%Z) position single
     = get_rb_collisions h m None position single.
Proof.
  split.
  - intros c Hc. unfold get_rb_collisions in Hc.
    destruct (rb_scan_filters _ _ _ _ _ _ _ Hc) as [HL HP]. split.
    + intros p ->. apply HP. reflexivity.
    + intros z -> Hz. assert (E : Some (CollisionMap.layer c) = Some z).
      { apply HL. simpl. apply negb_true_iff. apply Z.eqb_neq. exact Hz. }
      congruence.
  - unfold get_rb_collisions. generalize (detect_collisions m) (@nil Collision).
    intros cs. induction cs as [|c0 cs IH]; intros acc; simpl; [reflexivity |].
    destruct (position_truthy position && negb (bool_decide (CollisionMap.position c0 = position)));
      [apply IH |].
    destruct (1 <? length (List.filter (rigid h) (colliders c0))); [| apply IH].
    destruct single; [reflexivity | apply IH].
Qed.

Lemma get_rb_collisions_filters_witness :
  exists c,
    get_rb_collisions Scenario.crowd Scenario.two_layers (Some 1%Z) (Some (2, 2)%Z) true
    = Some c
    /\ CollisionMap.position c = Some (2, 2)%Z /\ CollisionMap.layer c = 1%Z.
Proof.
  exists (mkCollision 1 (Some (2, 2)%Z) [3; 4]). split; [reflexivity |].
  destruct (proj1 (get_rb_collisions_filters Scenario.crowd Scenario.two_layers
                     (Some 1%Z) (Some (2, 2)%Z) true)
              (mkCollision 1 (Some (2, 2)%Z) [3; 4]) eq_refl) as [Hp Hl].
  split; [exact (Hp _ eq_refl) | apply Hl; [reflexivity | lia]].
Defined.
End CollisionMapApi.

(** ** What the move phase grants, and what it takes back *)
Section MoveOutcomes.
Import CollisionMap TermGame Notions.
Implicit Types (h : heap) (m : t) (o x y : ref) (l : list ref).

Local Abbreviation fetch h m := (get_rb_collisions h m None None true).
Local Abbreviation rigid h :=
  (fun game_obj => GameObject.rigidbody (GameObject.collision (h game_obj))).
Local Abbreviation olayer h o := (GameObject.layer (GameObject.collision (h o))).
Local Abbreviation opos h o := (GameObject.position (h o)).

Lemma calm_bucket h m L P :
  calm h m = true -> length (List.filter (rigid h) (bucket m L P)) <= 1.
Proof.
  unfold calm. rewrite forallb_forall. intros H.
  destruct (bucket m L P) as [|o l] eqn:E; [simpl; lia |].
  assert (Hin : In o (bucket m L P)) by (rewrite E; left; reflexivity).
  specialize (H _ (bucket_iter _ _ _ _ Hin)). simpl in H. apply Nat.leb_le in H.
  rewrite <- E. exact H.
Qed.

Lemma calm_intro h m :
  wf m = true -> (forall L P, length (List.filter (rigid h) (bucket m L P)) <= 1) ->
  calm h m = true.
Proof.
  intros Hwf H. unfold calm. apply forallb_forall. intros [[L P] l] Hin. simpl.
  apply Nat.leb_le. rewrite <- (iter_bucket _ _ _ _ Hwf Hin). apply H.
Qed.

Lemma apply_request_other h m x q y L P :
  y <> x -> (In y (bucket (apply_request h m (x, q)) L P) <-> In y (bucket m L P)).
Proof.
  intros Hne. rewrite bucket_apply_request.
  set (b1 := (if decide (L = olayer h x /\ P = opos h x) then list_remove x
              else fun l => l) (bucket m L P)).
  assert (H1 : In y b1 <-> In y (bucket m L P)).
  { unfold b1. destruct (decide (L = olayer h x /\ P = opos h x)); [| tauto].
    split; [apply In_list_remove | apply In_list_remove_ne, Hne]. }
  rewrite <- H1. destruct (decide (L = olayer h x /\ P = q)); [| tauto].
  rewrite in_app_iff. simpl. split; [intros [H | [H | []]]; [exact H | congruence] | tauto].
Qed.

Lemma apply_requests_other h rqs y :
  ~ In y (List.map fst rqs) ->
  forall m L P, In y (bucket (fold_left (apply_request h) rqs m) L P) <-> In y (bucket m L P).
Proof.
  induction rqs as [|[x q] rqs IH]; simpl; intros Hn m L P; [tauto |].
  rewrite IH by tauto. apply apply_request_other. intros ->. tauto.
Qed.

(** A request that is not followed by another for the same object leaves
    the object in the bucket it asked for. *)
Lemma apply_requests_target h rqs :
  List.NoDup (List.map fst rqs) ->
  forall m o p, In (o, p) rqs ->
    In o (bucket (fold_left (apply_request h) rqs m) (olayer h o) p).
Proof.
  induction rqs as [|[x q] rqs IH]; simpl; intros Hnd m o p Hin; [destruct Hin |].
  inversion Hnd as [|? ? Hnot Hnd']; subst. destruct Hin as [E | Hin].
  - inversion E; subst. apply apply_requests_other; [exact Hnot |].
    rewrite bucket_put.
    destruct (decide (olayer h o = olayer h o /\ p = p)); [| tauto].
    apply in_or_app. right. left. reflexivity.
  - apply IH; assumption.
Qed.

(** *** The final loop writes positions only *)

Lemma assignments_fields (l : list (ref * option pos)) :
  forall h o,
    let h' := fold_left (fun h a => heap_set_position h (fst a) (snd a)) l h in
    GameObject.id (h' o) = GameObject.id (h o)
    /\ GameObject.collision (h' o) = GameObject.collision (h o).
Proof.
  induction l as [|[x P] l IH]; intros h o; simpl; [split; reflexivity |].
  destruct (IH (heap_set_position h x P) o) as [H1 H2]. rewrite H1, H2.
  unfold heap_set_position. destruct (decide (o = x)); split; reflexivity.
Qed.

Lemma assignments_fixed (l : list (ref * option pos)) h :
  (forall a, In a l -> opos h (fst a) = snd a) ->
  forall h', (forall r, h' r = h r) ->
    forall r, fold_left (fun h a => heap_set_position h (fst a) (snd a)) l h' r = h r.
Proof.
  induction l as [|[x P] l IH]; intros Hall h' Heq r; simpl; [apply Heq |].
  apply IH; [intros a Ha; apply Hall; right; exact Ha |].
  intros r'. unfold heap_set_position. destruct (decide (r' = x)) as [->|]; [| apply Heq].
  rewrite Heq. specialize (Hall (x, P) (or_introl eq_refl)). simpl in Hall.
  destruct (h x) as [i pp cc]. simpl in *. subst pp. reflexivity.
Qed.

Lemma assignments_untouched (l : list (ref * option pos)) o :
  ~ In o (List.map fst l) ->
  forall h, fold_left (fun h a => heap_set_position h (fst a) (snd a)) l h o = h o.
Proof.
  induction l as [|[x P] l IH]; simpl; intros Hn h; [reflexivity |].
  rewrite IH by tauto. unfold heap_set_position.
  destruct (decide (o = x)) as [->|]; [tauto | reflexivity].
Qed.

Lemma In_assignments m o P :
  In (o, P) (flat_map (fun e => List.map (fun o => (o, snd (fst e))) (snd e)) (iter m))
  <-> exists L l, In (L, P, l) (iter m) /\ In o l.
Proof.
  rewrite in_flat_map. split.
  - intros [[[L P'] l] [He Hm]]. simpl in Hm. apply in_map_iff in Hm.
    destruct Hm as [o' [E Ho']]. inversion E; subst. exists L, l. split; assumption.
  - intros (L & l & He & Ho). exists (L, P, l). split; [exact He |]. simpl.
    apply in_map_iff. exists o. split; [reflexivity | exact Ho].
Qed.

(** Where every occupant is listed at its recorded position, the final
    loop writes back what is there. *)
Lemma reconcile_fixed h m :
  wf m = true -> (forall L P x, In x (bucket m L P) -> opos h x = P) ->
  forall r, reconcile h m r = h r.
Proof.
  intros Hwf Hhome r. rewrite reconcile_flat. apply assignments_fixed; [| reflexivity].
  intros [x P] Ha. simpl. apply In_assignments in Ha. destruct Ha as (L & l & He & Hx).
  apply (Hhome L P). rewrite (iter_bucket _ _ _ _ Hwf He). exact Hx.
Qed.

Lemma reconcile_untouched h m o :
  (forall L P, ~ In o (bucket m L P)) -> wf m = true -> reconcile h m o = h o.
Proof.
  intros Hn Hwf. rewrite reconcile_flat. apply assignments_untouched.
  intros Hin. apply in_map_iff in Hin. destruct Hin as [[o' P] [E Ha]]. simpl in E. subst o'.
  apply In_assignments in Ha. destruct Ha as (L & l & He & Ho).
  apply (Hn L P). rewrite (iter_bucket _ _ _ _ Hwf He). exact Ho.
Qed.

Lemma In_notify active (r : report) x cs :
  In (x, cs) (notify active r) -> In x (List.map snd active).
Proof.
  unfold notify. rewrite in_flat_map. intros [[i cs'] [_ Hin]]. simpl in Hin.
  destruct (dget i active) as [game_obj|] eqn:E; [| destruct Hin].
  destruct Hin as [E' | []]. inversion E'; subst.
  apply dget_In in E. apply (in_map snd) in E. exact E.
Qed.

Lemma resolve_nothing fuel h m unres r k :
  resolve fuel h m None unres r k = Some (mkResolved m unres r k).
Proof. destruct fuel; reflexivity. Qed.

Lemma resolve_mono h fuel :
  forall m collision unres r k res,
    resolve fuel h m collision unres r k = Some res ->
    forall fuel', fuel <= fuel' -> resolve fuel' h m collision unres r k = Some res.
Proof.
  induction fuel as [|fuel IH]; intros m collision unres r k res Hres fuel' Hle;
    destruct collision as [c|]; simpl in Hres; try discriminate;
    try (rewrite resolve_nothing; exact Hres).
  destruct fuel' as [|fuel']; [lia |]. simpl.
  destruct (attempt h m c unres r) as [[m' unres'] r'].
  apply (IH _ _ _ _ _ _ Hres). lia.
Qed.

(** The outcome of the phase does not depend on the fuel, once there is
    enough of it. *)
Lemma move_objects_facts (g : TermGame) (Hwf : wf (collision_map g) = true) :
  exists n g' notes,
    (forall fuel, n <= fuel -> move_objects fuel g = Some (g', notes))
    /\ move_requests g' = []
    /\ active_objects g' = active_objects g
    /\ (forall o, GameObject.id (objects g' o) = GameObject.id (objects g o)
                  /\ GameObject.collision (objects g' o)
                     = GameObject.collision (objects g o))
    /\ (forall x cs, In (x, cs) notes -> In x (List.map snd (active_objects g)))
    /\ last_frame_time g' = last_frame_time g
    /\ now g' = now g.
Proof.
  set (m1 := fold_left (apply_request (objects g)) (rev (move_requests g)) (collision_map g)).
  set (n := length (move_requests g) + misplaced (objects g) m1 + 1).
  assert (Hq : move_requests g = [] \/ move_requests g <> [])
    by (destruct (move_requests g); [left | right]; congruence).
  destruct Hq as [Hq | Hq].
  - exists 0, g, []. split.
    + intros fuel _. unfold move_objects. rewrite Hq. reflexivity.
    + repeat split; try assumption. intros x cs [].
  - destruct (resolve_total (objects g) n m1 (fetch (objects g) m1) [] [] 0)
      as (res & Hres & _);
      [apply wf_apply_requests, Hwf | left; reflexivity | unfold n; lia | constructor |].
    exists n. eexists. eexists. split.
    + intros fuel Hfuel. rewrite (move_objects_queued _ _ Hq).
      rewrite (drain_spec (move_requests g) fuel g eq_refl) by (unfold n in Hfuel; lia).
      simpl. fold m1. rewrite (resolve_mono _ _ _ _ _ _ _ _ Hres fuel Hfuel). reflexivity.
    + simpl. split; [reflexivity |]. split; [reflexivity |].
      split; [| split; [| split; reflexivity]].
      * intros o. rewrite reconcile_flat. apply assignments_fields.
      * intros x cs Hin. exact (In_notify _ _ _ _ Hin).
Qed.

(** X8.  The move phase returns for every queue; it leaves the queue
    empty and the registry as it was, changes no object's id or collision
    profile, and notifies only objects that are filed in the registry. *)
Theorem move_objects_conserves (g : TermGame) (Hwf : wf (collision_map g) = true) :
  exists n, forall fuel, n <= fuel ->
    exists g' notes,
      move_objects fuel g = Some (g', notes)
      /\ move_requests g' = []
      /\ active_objects g' = active_objects g
      /\ (forall o, GameObject.id (objects g' o) = GameObject.id (objects g o)
                    /\ GameObject.collision (objects g' o)
                       = GameObject.collision (objects g o))
      /\ (forall x cs, In (x, cs) notes -> In x (List.map snd (active_objects g))).
Proof.
  destruct (move_objects_facts g Hwf) as (n & g' & notes & H1 & H2 & H3 & H4 & H5 & _).
  exists n. intros fuel Hfuel. exists g', notes.
  split; [exact (H1 fuel Hfuel) |]. repeat split; try assumption; apply H4.
Qed.

Lemma move_objects_conserves_witness :
  exists n, forall fuel, n <= fuel ->
    exists g' notes,
      move_objects fuel
        (Scenario.game 3 3 Scenario.crowd Scenario.one_layer [(1%Z, 1); (2%Z, 2)]
           [(1, Some (0, 0)%Z); (1, Some (3, 3)%Z)]) = Some (g', notes)
      /\ move_requests g' = []
      /\ active_objects g' = [(1%Z, 1); (2%Z, 2)].
Proof.
  destruct (move_objects_conserves
              (Scenario.game 3 3 Scenario.crowd Scenario.one_layer [(1%Z, 1); (2%Z, 2)]
                 [(1, Some (0, 0)%Z); (1, Some (3, 3)%Z)]) eq_refl) as [n Hn].
  exists n. intros fuel Hfuel. destruct (Hn fuel Hfuel) as (g' & notes & H1 & H2 & H3 & _).
  exists g', notes. split; [exact H1 |]. split; [exact H2 | exact H3].
Defined.
Lemma listed_or_not m o :
  wf m = true ->
  (exists L P, In o (bucket m L P)) \/ (forall L P, ~ In o (bucket m L P)).
Proof.
  intros Hwf.
  set (asg := flat_map (fun e => List.map (fun o => (o, snd (fst e))) (snd e)) (iter m)).
  destruct (in_dec Nat.eq_dec o (List.map fst asg)) as [Hin | Hn].
  - left. apply in_map_iff in Hin. destruct Hin as [[o' P] [E Ha]]. simpl in E. subst o'.
    apply In_assignments in Ha. destruct Ha as (L & l & He & Ho).
    exists L, P. rewrite (iter_bucket _ _ _ _ Hwf He). exact Ho.
  - right. intros L P Hin. apply Hn. apply in_map_iff. exists (o, P). split; [reflexivity |].
    apply In_assignments. exists L, (bucket m L P).
    split; [exact (bucket_iter _ _ _ _ Hin) | exact Hin].
Qed.

Lemma object_ext (a b : GameObject.GameObject) :
  GameObject.id a = GameObject.id b ->
  GameObject.position a = GameObject.position b ->
  GameObject.collision a = GameObject.collision b -> a = b.
Proof. destruct a, b; simpl; intros -> -> ->; reflexivity. Qed.

Lemma moves_granted (g : TermGame)
    (Hwf : wf (collision_map g) = true)
    (Hcons : consistent (objects g) (collision_map g) = true)
    (Hreq : List.NoDup (List.map fst (move_requests g)))
    (Hcalm : calm (objects g)
               (fold_left (apply_request (objects g)) (rev (move_requests g))
                  (collision_map g)) = true) :
  forall fuel, length (move_requests g) <= fuel ->
    exists g',
      move_objects fuel g = Some (g', [])
      /\ collision_map g'
         = fold_left (apply_request (objects g)) (rev (move_requests g)) (collision_map g)
      /\ (forall o p, In (o, p) (move_requests g) ->
            GameObject.position (objects g' o) = p)
      /\ (forall y, ~ In y (List.map fst (move_requests g)) -> objects g' y = objects g y).
Proof.
  intros fuel Hfuel. destruct (consistent_tidy _ _ Hcons) as [Ht Hhome].
  set (h := objects g) in *. set (m := collision_map g) in *.
  set (m1 := fold_left (apply_request h) (rev (move_requests g)) m) in *.
  assert (Hq : move_requests g = [] \/ move_requests g <> [])
    by (destruct (move_requests g); [left | right]; congruence).
  destruct Hq as [Hq | Hq].
  - exists g. unfold move_objects. unfold m1. rewrite Hq. simpl.
    split; [reflexivity |]. split; [reflexivity |]. split; [intros o p [] | reflexivity].
  - rewrite (move_objects_queued _ _ Hq).
    rewrite (drain_spec (move_requests g) fuel g eq_refl) by lia.
    simpl. fold h. fold m. fold m1.
    rewrite (proj2 (fetch_none_calm h m1) Hcalm), resolve_nothing. simpl.
    eexists. split; [reflexivity |]. simpl. split; [reflexivity |].
    assert (Hwf1 : wf m1 = true) by (apply wf_apply_requests; exact Hwf).
    assert (Hnd : List.NoDup (List.map fst (rev (move_requests g))))
      by (rewrite List.map_rev; apply List.NoDup_rev; exact Hreq).
    destruct (apply_requests_tidy h (rev (move_requests g)) m Ht Hnd) as [Ht1 _].
    { intros o' _ L P Hin. exact (Hhome _ _ _ Hin). }
    split.
    + intros o p Hin. apply (reconcile_position h m1 o (olayer h o) p Hwf1 Ht1).
      apply apply_requests_target; [exact Hnd |]. rewrite <- in_rev. exact Hin.
    + intros y Hy. destruct (listed_or_not m1 y Hwf1) as [(L & P & Hin) | Hn].
      * apply object_ext.
        -- rewrite reconcile_flat. apply assignments_fields.
        -- rewrite (reconcile_position h m1 y L P Hwf1 Ht1 Hin).
           apply Hhome with (L := L).
           apply (apply_requests_other h (rev (move_requests g)) y); [| exact Hin].
           rewrite List.map_rev, <- in_rev. exact Hy.
        -- rewrite reconcile_flat. apply assignments_fields.
      * apply reconcile_untouched; assumption.
Qed.

(** X9.  When the queue holds at most one request per object and applying
    it puts no two rigidbodies in one bucket, every request is granted:
    the phase sends no notification, each requested object ends with the
    requested position, and every other object is exactly as before. *)
Theorem unobstructed_moves_are_granted (g : TermGame)
    (Hwf : wf (collision_map g) = true)
    (Hcons : consistent (objects g) (collision_map g) = true)
    (Hreq : List.NoDup (List.map fst (move_requests g)))
    (Hcalm : calm (objects g)
               (fold_left (apply_request (objects g)) (rev (move_requests g))
                  (collision_map g)) = true) :
  forall fuel, length (move_requests g) <= fuel ->
    exists g',
      move_objects fuel g = Some (g', [])
      /\ collision_map g'
         = fold_left (apply_request (objects g)) (rev (move_requests g)) (collision_map g)
      /\ (forall o p, In (o, p) (move_requests g) ->
            GameObject.position (objects g' o) = p)
      /\ (forall y, ~ In y (List.map fst (move_requests g)) -> objects g' y = objects g y).
Proof. exact (moves_granted g Hwf Hcons Hreq Hcalm). Qed.

Lemma unobstructed_moves_are_granted_witness :
  exists g',
    move_objects 1
      (Scenario.game 3 3 Scenario.lonely Scenario.lonely_map [(5%Z, 5)]
         [(5, Some (2, 1)%Z)]) = Some (g', [])
    /\ GameObject.position (objects g' 5) = Some (2, 1)%Z.
Proof.
  destruct (unobstructed_moves_are_granted
              (Scenario.game 3 3 Scenario.lonely Scenario.lonely_map [(5%Z, 5)]
                 [(5, Some (2, 1)%Z)])) with (fuel := 1)
    as (g' & Hm & _ & Hp & _).
  - reflexivity.
  - reflexivity.
  - apply NoDup_ListNoDup. simpl. apply (bool_decide_unpack _). vm_compute. exact I.
  - reflexivity.
  - simpl. lia.
  - exists g'. split; [exact Hm |]. apply Hp. left. reflexivity.
Defined.

Lemma fetch_some_entry h m c :
  fetch h m = Some c ->
  exists l, In (layer c, position c, l) (iter m)
            /\ colliders c = List.filter (rigid h) l
            /\ 1 < length (colliders c).
Proof.
  intros Hc. unfold get_rb_collisions in Hc.
  destruct (rb_scan_single _ _ _ _ Hc) as [c0 (Hin & -> & Hl)].
  exists (colliders c0). split; [exact (detect_collisions_iter _ _ Hin) |].
  split; [reflexivity | exact Hl].
Qed.

Lemma filter_list_remove_le (f : ref -> bool) o l :
  length (List.filter f (list_remove o l)) <= length (List.filter f l).
Proof.
  induction l as [|y l IH]; simpl; [lia |].
  destruct (decide (o = y)); simpl; destruct (f y); simpl; lia.
Qed.

Lemma filter_list_remove_in (f : ref -> bool) o l :
  In o l -> f o = true ->
  length (List.filter f (list_remove o l)) + 1 = length (List.filter f l).
Proof.
  intros Hin Hf. induction l as [|y l IH]; simpl; [destruct Hin |].
  destruct (decide (o = y)) as [->|Hne].
  - rewrite Hf. simpl. lia.
  - destruct Hin as [E | Hin]; [congruence |]. specialize (IH Hin).
    simpl. destruct (f y); simpl; lia.
Qed.

Lemma filter_single (f : ref -> bool) a l :
  In a l -> f a = true -> length (List.filter f l) <= 1 -> List.filter f l = [a].
Proof.
  intros Hin Hf Hlen. assert (Ha : In a (List.filter f l)) by (apply filter_In; tauto).
  destruct (List.filter f l) as [|x [|y r]]; simpl in *; [tauto | | lia].
  destruct Ha as [-> | []]. reflexivity.
Qed.

(** X10.  Take a map with one entry per key that agrees with the recorded
    positions (every listed object is listed once, in the bucket of its
    own layer and recorded position) and in which no bucket holds two
    rigidbodies, and a queue with a single request: by a rigidbody [b],
    listed in the bucket of its recorded position, for another position
    whose bucket on the layer of [b] lists a rigidbody [a]; [a] and [b]
    carry different ids and each is filed in the registry under its id.
    Then the phase puts [b] back: it returns, every object is afterwards
    exactly as before, every bucket lists the same objects as before, and
    [a] and [b] are each notified once, of the other, and nobody else. *)
Theorem blocked_move_is_reverted (g : TermGame) (a b : ref) (p : option pos)
    (Hwf : wf (collision_map g) = true)
    (Hcons : consistent (objects g) (collision_map g) = true)
    (Hcalm : calm (objects g) (collision_map g) = true)
    (Hq : move_requests g = [(b, p)])
    (Hrb : GameObject.rigidbody (GameObject.collision (objects g b)) = true)
    (Hra : GameObject.rigidbody (GameObject.collision (objects g a)) = true)
    (Ha : In a (bucket (collision_map g)
                  (GameObject.layer (GameObject.collision (objects g b))) p))
    (Hb : In b (bucket (collision_map g)
                  (GameObject.layer (GameObject.collision (objects g b)))
                  (GameObject.position (objects g b))))
    (Hmoves : GameObject.position (objects g b) <> p)
    (Hids : GameObject.id (objects g a) <> GameObject.id (objects g b))
    (Hfa : dget (GameObject.id (objects g a)) (active_objects g) = Some a)
    (Hfb : dget (GameObject.id (objects g b)) (active_objects g) = Some b) :
  forall fuel, 1 <= fuel ->
    exists g',
      move_objects fuel g = Some (g', [(a, [b]); (b, [a])])
      /\ (forall o, objects g' o = objects g o)
      /\ (forall L' P' x,
            In x (bucket (collision_map g') L' P')
            <-> In x (bucket (collision_map g) L' P')).
Proof.
  intros fuel Hfuel. destruct (consistent_tidy _ _ Hcons) as [Ht Hhome].
  set (h := objects g) in *. set (m := collision_map g) in *.
  set (L := olayer h b) in *. set (old := opos h b) in *.
  set (m1 := apply_request h m (b, p)).
  set (m2 := add_obj (remove_obj m1 L p b) L old b).
  assert (Hab : a <> b) by (intros ->; apply Hids; reflexivity).
  assert (Hnb : ~ In b (bucket m L p)).
  { intros Hin. apply Hmoves. symmetry. exact (Hhome _ _ _ Hin). }
  assert (Hm1 : forall L' P',
             bucket m1 L' P'
             = (if decide (L' = L /\ P' = p) then fun l => l ++ [b] else fun l => l)
                 ((if decide (L' = L /\ P' = old) then list_remove b else fun l => l)
                    (bucket m L' P'))).
  { intros L' P'. unfold m1. apply bucket_apply_request. }
  assert (Hm1p : bucket m1 L p = bucket m L p ++ [b]).
  { rewrite Hm1. destruct (decide (L = L /\ p = p)); [| tauto].
    destruct (decide (L = L /\ p = old)) as [[_ E]|]; [| reflexivity].
    exfalso. apply Hmoves. symmetry. exact E. }
  assert (Hfa1 : List.filter (rigid h) (bucket m L p) = [a]).
  { apply filter_single; [exact Ha | exact Hra | apply calm_bucket, Hcalm]. }
  assert (Hcol : List.filter (rigid h) (bucket m1 L p) = [a; b]).
  { rewrite Hm1p, List.filter_app, Hfa1. simpl. rewrite Hrb. reflexivity. }
  assert (Hwf1 : wf m1 = true) by (apply wf_add_obj, wf_remove_obj, Hwf).
  assert (Hf1 : fetch h m1 = Some (mkCollision L p [a; b])).
  { destruct (fetch h m1) as [c|] eqn:Hf.
    - destruct (fetch_some_entry _ _ _ Hf) as (l0 & He & Hc & Hlen).
      rewrite <- (iter_bucket _ _ _ _ Hwf1 He) in Hc.
      destruct (decide (layer c = L /\ position c = p)) as [[EL EP]|Hn].
      + f_equal. destruct c as [cl cp cc]. simpl in *. subst cl cp. rewrite Hc, Hcol.
        reflexivity.
      + exfalso. rewrite Hc, Hm1 in Hlen.
        destruct (decide (layer c = L /\ position c = p)); [tauto |].
        pose proof (calm_bucket h m (layer c) (position c) Hcalm) as Hle.
        destruct (decide (layer c = L /\ position c = old)); [| lia].
        pose proof (filter_list_remove_le (rigid h) b (bucket m (layer c) (position c))). lia.
    - exfalso. apply fetch_none_calm in Hf.
      pose proof (calm_bucket h m1 L p Hf) as Hle. rewrite Hcol in Hle. simpl in Hle. lia. }
  assert (Hm2 : forall L' P',
             bucket m2 L' P'
             = if decide (L' = L /\ P' = old) then list_remove b (bucket m L old) ++ [b]
               else bucket m L' P').
  { intros L' P'. unfold m2. rewrite bucket_put.
    destruct (decide (L' = L /\ P' = old)) as [[-> ->]|Hno].
    - destruct (decide (L = L /\ old = p)) as [[_ E]|]; [contradiction |].
      rewrite Hm1. destruct (decide (L = L /\ old = p)) as [[_ E]|]; [contradiction |].
      destruct (decide (L = L /\ old = old)); [reflexivity | tauto].
    - destruct (decide (L' = L /\ P' = p)) as [[-> ->]|Hnp].
      + rewrite Hm1p. apply list_remove_snoc, Hnb.
      + rewrite Hm1. destruct (decide (L' = L /\ P' = p)); [tauto |].
        destruct (decide (L' = L /\ P' = old)); [tauto | reflexivity]. }
  assert (Hsame : forall L' P' x, In x (bucket m2 L' P') <-> In x (bucket m L' P')).
  { intros L' P' x. rewrite Hm2. destruct (decide (L' = L /\ P' = old)) as [[-> ->]|]; [| tauto].
    rewrite in_app_iff. simpl. destruct (decide (x = b)) as [->|Hx].
    - split; [intros _; exact Hb | intros _; right; left; reflexivity].
    - split.
      + intros [H | [H | []]]; [exact (In_list_remove _ _ _ H) | congruence].
      + intros H. left. apply In_list_remove_ne; assumption. }
  assert (Hwf2 : wf m2 = true) by (apply wf_add_obj, wf_remove_obj, Hwf1).
  assert (Hf2 : fetch h m2 = None).
  { apply fetch_none_calm. apply calm_intro; [exact Hwf2 |]. intros L' P'. rewrite Hm2.
    destruct (decide (L' = L /\ P' = old)); [| apply calm_bucket, Hcalm].
    rewrite List.filter_app, List.length_app. simpl. rewrite Hrb. simpl.
    pose proof (filter_list_remove_in (rigid h) b (bucket m L old) Hb Hrb).
    pose proof (calm_bucket h m L old Hcalm). lia. }
  assert (Hatt : attempt h m1 (mkCollision L p [a; b]) [] []
                 = (m2, [], [(GameObject.id (h a), [b]); (GameObject.id (h b), [a])])).
  { unfold attempt, record_peers. simpl.
    destruct (decide (opos h a = p)) as [_|Hna];
      [| exfalso; apply Hna; symmetry; exact (Hhome _ _ _ Ha)].
    destruct (decide (opos h b = p)) as [E|_]; [contradiction |].
    destruct (decide (a = a)); [| congruence].
    destruct (decide (b = a)); [congruence |].
    destruct (decide (b = b)); [| congruence].
    destruct (decide (GameObject.id (h b) = GameObject.id (h a))); [congruence |].
    reflexivity. }
  assert (Hqne : move_requests g <> []) by (rewrite Hq; discriminate).
  rewrite (move_objects_queued _ _ Hqne).
  rewrite (drain_spec (move_requests g) fuel g eq_refl) by (rewrite Hq; simpl; lia).
  rewrite Hq. simpl. fold h. fold m. fold L. fold old.
  change (add_obj (remove_obj m L old b) L p b) with m1.
  rewrite Hf1. destruct fuel as [|fuel]; [lia |]. simpl. rewrite Hatt.
  unfold refetch. rewrite Hf2, resolve_nothing. simpl. fold h. rewrite Hfa, Hfb.
  eexists. split; [reflexivity |]. simpl. split.
  - intros o. apply reconcile_fixed; [exact Hwf2 |].
    intros L' P' x Hx. symmetry. apply (Hhome x L' P'). apply Hsame. exact Hx.
  - exact Hsame.
Qed.

Lemma blocked_move_is_reverted_witness :
  exists g',
    move_objects 1 (Cases.neighbours_game [(2, Some (5, 5)%Z)])
    = Some (g', [(1, [2]); (2, [1])])
    /\ objects g' 2 = Cases.neighbours 2.
Proof.
  destruct (blocked_move_is_reverted (Cases.neighbours_game [(2, Some (5, 5)%Z)])
              1 2 (Some (5, 5)%Z)) with (fuel := 1) as (g' & Hm & Ho & _);
    try reflexivity; try (simpl; lia); try discriminate.
  exists g'. split; [exact Hm | apply Ho].
Defined.
End MoveOutcomes.

(** ** The rebuild at draw time and the end of a pass *)
Section TickLoop.
Import CollisionMap TermGame Notions.
Implicit Types (h : heap) (m : t) (o x y : ref).

Local Abbreviation olayer h o := (GameObject.layer (GameObject.collision (h o))).
Local Abbreviation opos h o := (GameObject.position (h o)).

Lemma rebuild_lists_only_colliders h (act : list (Z * ref)) :
  let step := fun (m : t) (e : Z * ref) =>
                if GameObject.collider (GameObject.collision (h (snd e)))
                then add_obj m (olayer h (snd e)) (opos h (snd e)) (snd e)
                else m in
  forall m o L P,
    In o (bucket (fold_left step act m) L P) ->
    In o (bucket m L P)
    \/ (In o (List.map snd act)
        /\ GameObject.collider (GameObject.collision (h o)) = true).
Proof.
  intros step. induction act as [|[i x] act IH]; intros m o L P; simpl; [tauto |].
  intros Hin. destruct (IH _ _ _ _ Hin) as [Hm | [Ho Hc]];
    [| right; split; [right; exact Ho | exact Hc]].
  revert Hm. unfold step at 1. simpl.
  destruct (GameObject.collider (GameObject.collision (h x))) eqn:Hx; [| tauto].
  unfold add_obj. rewrite bucket_at_bucket.
  destruct (decide (L = olayer h x /\ P = opos h x)) as [[-> ->]|]; [| tauto].
  rewrite in_app_iff. simpl. intros [H | [<- | []]]; [left; exact H |].
  right. split; [left; reflexivity | exact Hx].
Qed.

(** X11.  The rebuild in [__draw_game_objects] starts from an empty map,
    whatever the map was: when no object is filed twice, the new map has
    one entry per key, lists every filed collider and nothing else, each
    once and in the bucket of its own layer and recorded position (the
    bucket [None] for a collider without a position); the objects
    themselves are not touched. *)
Theorem rebuild_restores_agreement (g : TermGame)
    (Hact : List.NoDup (List.map snd (active_objects g))) :
  let g' := draw_game_objects g in
  objects g' = objects g
  /\ wf (collision_map g') = true
  /\ consistent (objects g') (collision_map g') = true
  /\ forall o,
       indexed (collision_map g') o
       <-> (In o (List.map snd (active_objects g))
            /\ GameObject.collider (GameObject.collision (objects g o)) = true).
Proof.
  intros g'. destruct (draw_game_objects_consistent g Hact) as (Hwf & Hcons & Hidx).
  split; [reflexivity |]. split; [exact Hwf |]. split; [exact Hcons |].
  intros o. split.
  - intros (L & P & Hin). unfold g', draw_game_objects in Hin. simpl in Hin.
    destruct (rebuild_lists_only_colliders (objects g) (active_objects g) [] o L P Hin)
      as [H | H]; [| exact H].
    unfold bucket, dfind in H. simpl in H. destruct H.
  - intros [Ho Hc]. exact (Hidx o Ho Hc).
Qed.

Lemma rebuild_restores_agreement_witness :
  consistent Scenario.crowd
    (collision_map
       (draw_game_objects
          (Scenario.game 3 3 Scenario.crowd [(7%Z, [(None, [1; 1; 4])])]
             [(1%Z, 1); (2%Z, 2); (3%Z, 3)] []))) = true.
Proof.
  apply (rebuild_restores_agreement
           (Scenario.game 3 3 Scenario.crowd [(7%Z, [(None, [1; 1; 4])])]
              [(1%Z, 1); (2%Z, 2); (3%Z, 3)] [])).
  apply NoDup_ListNoDup. simpl. apply (bool_decide_unpack _). vm_compute. exact I.
Defined.

(** X12.  The last two steps of a pass, [__move_objects] and then
    [__draw_frame], from any state whose map has one entry per key, whose
    registry files no object twice and whose [last_frame_time] is [None],
    whatever the queue holds: the move phase returns, the frame is drawn,
    and afterwards the queue is empty, the registry is the one before the
    two steps, the objects are as the move phase left them, and the map
    has one entry per key and agrees with the recorded positions, also
    when the move phase itself left an object in two buckets. *)
Theorem move_then_draw_restores_agreement (g : TermGame)
    (Hwf : wf (collision_map g) = true)
    (Hact : List.NoDup (List.map snd (active_objects g)))
    (Hlft : last_frame_time g = None) :
  exists n g3 notes,
    (forall fuel, n <= fuel -> move_objects fuel g = Some (g3, notes))
    /\ draw_frame g3 = (draw_game_objects g3, [DrawFrame (now g)])
    /\ objects (draw_game_objects g3) = objects g3
    /\ active_objects (draw_game_objects g3) = active_objects g
    /\ move_requests (draw_game_objects g3) = []
    /\ wf (collision_map (draw_game_objects g3)) = true
    /\ consistent (objects g3) (collision_map (draw_game_objects g3)) = true.
Proof.
  destruct (move_objects_facts g Hwf)
    as (n & g3 & notes & Hrun & Hq3 & Ha3 & _ & _ & Hl3 & Hn3).
  assert (Hact3 : List.NoDup (List.map snd (active_objects g3)))
    by (rewrite Ha3; exact Hact).
  destruct (draw_game_objects_consistent g3 Hact3) as (Hw & Hc & _).
  exists n, g3, notes. split; [exact Hrun |]. split.
  - unfold draw_frame, ready_for_next_frame. rewrite Hl3, Hlft, Hn3. reflexivity.
  - split; [reflexivity |]. split; [exact Ha3 |]. split; [exact Hq3 |].
    split; [exact Hw | exact Hc].
Qed.

(** Two requests for object 1, which the move phase leaves listed at both
    targets; the rebuild of the frame repairs it. *)
Lemma move_then_draw_restores_agreement_witness :
  exists n g3 notes,
    (forall fuel, n <= fuel ->
       move_objects fuel
         (Scenario.game 3 3 Scenario.crowd Scenario.one_layer [(1%Z, 1); (2%Z, 2)]
            [(1, Some (0, 0)%Z); (1, Some (3, 3)%Z)]) = Some (g3, notes))
    /\ draw_frame g3 = (draw_game_objects g3, [DrawFrame 0])
    /\ consistent (objects g3) (collision_map (draw_game_objects g3)) = true.
Proof.
  destruct (move_then_draw_restores_agreement
              (Scenario.game 3 3 Scenario.crowd Scenario.one_layer [(1%Z, 1); (2%Z, 2)]
                 [(1, Some (0, 0)%Z); (1, Some (3, 3)%Z)]))
    as (n & g3 & notes & Hrun & Hd & _ & _ & _ & _ & Hc).
  - reflexivity.
  - apply NoDup_ListNoDup. simpl. apply (bool_decide_unpack _). vm_compute. exact I.
  - reflexivity.
  - exists n, g3, notes. split; [exact Hrun |]. split; [exact Hd | exact Hc].
Defined.
End TickLoop.


(** ** Spawning, destroying and looking up *)
Section RegistryFacts.
Import CollisionMap TermGame Registry.
Implicit Types (s : Session) (m : t) (o r : ref).

Lemma dget_dset {K V} `{EqDecision K} (k k' : K) (v : V) (d : list (K * V)) :
  dget k' (dset k v d) = if decide (k' = k) then Some v else dget k' d.
Proof. unfold dset. rewrite dget_dupd. reflexivity. Qed.

Lemma dset_fresh {K V} `{EqDecision K} (k : K) (v : V) (d : list (K * V)) :
  dget k d = None -> dset k v d = d ++ [(k, v)].
Proof.
  unfold dset. induction d as [|[k0 v0] d IH]; simpl; [reflexivity |].
  destruct (decide (k = k0)); [discriminate |]. intros Hg. rewrite (IH Hg). reflexivity.
Qed.

Lemma ddel_none {K V} `{EqDecision K} (k : K) (d : list (K * V)) :
  ddel k d = None <-> dget k d = None.
Proof.
  induction d as [|[k0 v0] d IH]; simpl; [tauto |].
  destruct (decide (k = k0)); [split; discriminate |].
  destruct (ddel k d); [split; [discriminate | intros H; apply IH in H; discriminate] |].
  split; [intros _; apply IH; reflexivity | reflexivity].
Qed.

Lemma ddel_some {K V} `{EqDecision K} (k : K) (d d' : list (K * V)) :
  ddel k d = Some d' ->
  exists d1 v d2, d = d1 ++ (k, v) :: d2 /\ d' = d1 ++ d2 /\ ~ In k (keys d1).
Proof.
  revert d'. induction d as [|[k0 v0] d IH]; simpl; intros d'; [discriminate |].
  destruct (decide (k = k0)) as [->|Hne].
  - intros [= <-]. exists [], v0, d. repeat split. intros [].
  - destruct (ddel k d) as [r'|]; [| discriminate]. intros [= <-].
    destruct (IH r' eq_refl) as (d1 & v & d2 & -> & -> & Hn).
    exists ((k0, v0) :: d1), v, d2. repeat split. simpl. intros [E | Hin]; [congruence | tauto].
Qed.

Lemma ddel_dset_fresh {K V} `{EqDecision K} (k : K) (v : V) (d : list (K * V)) :
  dget k d = None -> ddel k (dset k v d) = Some d.
Proof.
  intros Hg. rewrite (dset_fresh _ _ _ Hg).
  induction d as [|[k0 v0] d IH]; simpl.
  - destruct (decide (k = k)); [reflexivity | congruence].
  - simpl in Hg. destruct (decide (k = k0)); [discriminate |]. rewrite (IH Hg). reflexivity.
Qed.

Lemma dget_not_key {K V} `{EqDecision K} (k : K) (d : list (K * V)) :
  ~ In k (keys d) -> dget k d = None.
Proof.
  intros Hn. destruct (dget k d) as [v|] eqn:E; [| reflexivity].
  exfalso. apply Hn. apply dget_In in E. apply (in_map fst) in E. exact E.
Qed.

Lemma next_id_is_free s :
  registry_ok s -> dget (next_game_obj_id s) (active_objects (game s)) = None.
Proof.
  intros (_ & _ & Hfiled & _).
  destruct (dget _ _) as [r|] eqn:E; [| reflexivity].
  apply dget_In in E. destruct (Hfiled _ _ E) as (_ & Hlt & _). lia.
Qed.

(** X13.  [spawn_obj] with a label that is no resource changes nothing
    and returns [None].  With a known label, in a registry that is in
    order, it never raises: the new object gets the next id, the profile
    of its class and the given position (also [None]); it is filed last
    under its id, the counter moves on by one, and the object is appended
    to the bucket of its layer and position whether or not it is a
    collider.  No other object and no other bucket changes, and the
    registry is in order again. *)
Theorem spawn_obj_files_and_lists s (label : String.string) (position : option pos) :
  (dget label (resources s) = None -> spawn_obj s label position = Ok (s, None))
  /\ (forall profile,
        dget label (resources s) = Some profile -> registry_ok s ->
        exists s',
          spawn_obj s label position = Ok (s', Some (next_ref s))
          /\ objects (game s') (next_ref s)
             = GameObject.mkGameObject (next_game_obj_id s) position profile
          /\ (forall r, r <> next_ref s -> objects (game s') r = objects (game s) r)
          /\ active_objects (game s')
             = active_objects (game s) ++ [(next_game_obj_id s, next_ref s)]
          /\ next_game_obj_id s' = (next_game_obj_id s + 1)%Z
          /\ (forall L P,
                bucket (collision_map (game s')) L P
                = if decide (L = GameObject.layer profile /\ P = position)
                  then bucket (collision_map (game s)) L P ++ [next_ref s]
                  else bucket (collision_map (game s)) L P)
          /\ registry_ok s').
Proof.
  split.
  - intros Hnone. unfold spawn_obj. rewrite Hnone. reflexivity.
  - intros profile Hres Hok. unfold spawn_obj, new_game_object. rewrite Hres.
    pose proof (next_id_is_free s Hok) as Hfree.
    eexists. split; [reflexivity |]. simpl.
    unfold heap_set_position, heap_store.
    destruct (decide (next_ref s = next_ref s)) as [_|Hn]; [| congruence]. simpl.
    assert (Hb : forall L P,
               bucket (add_obj (collision_map (game s)) (GameObject.layer profile)
                         position (next_ref s)) L P
               = if decide (L = GameObject.layer profile /\ P = position)
                 then bucket (collision_map (game s)) L P ++ [next_ref s]
                 else bucket (collision_map (game s)) L P).
    { intros L P. unfold add_obj. rewrite bucket_at_bucket.
      destruct (decide (L = GameObject.layer profile /\ P = position)) as [[-> ->]|];
        reflexivity. }
    split; [reflexivity |].
    split; [intros r Hr; destruct (decide (r = next_ref s)); [contradiction | reflexivity] |].
    split; [apply dset_fresh, Hfree |]. split; [reflexivity |]. split; [exact Hb |].
    destruct Hok as (Hkeys & Hrefs & Hfiled & Hlisted).
    unfold registry_ok. simpl. rewrite (dset_fresh _ _ _ Hfree).
    split; [| split; [| split]].
    + unfold keys. rewrite List.map_app. simpl.
      apply List.NoDup_app; [exact Hkeys | constructor; [intros [] | constructor] |].
      intros i Hi [<- | []]. apply in_map_iff in Hi. destruct Hi as [[i' r'] [E Hin]].
      simpl in E. subst i'. destruct (Hfiled _ _ Hin) as (_ & Hlt & _). lia.
    + rewrite List.map_app. simpl.
      apply List.NoDup_app; [exact Hrefs | constructor; [intros [] | constructor] |].
      intros r Hr [<- | []]. apply in_map_iff in Hr. destruct Hr as [[i' r'] [E Hin]].
      simpl in E. subst r'. destruct (Hfiled _ _ Hin) as (_ & _ & Hlt). lia.
    + intros i r Hin. apply in_app_or in Hin. destruct Hin as [Hin | [E | []]].
      * destruct (Hfiled _ _ Hin) as (Hid & Hlt & Hr).
        destruct (decide (r = next_ref s)) as [->|_]; [lia |].
        split; [exact Hid |]. split; lia.
      * inversion E; subst. destruct (decide (next_ref s = next_ref s)); [| congruence].
        simpl. split; [reflexivity |]. split; lia.
    + intros r L P. rewrite Hb.
      destruct (decide (L = GameObject.layer profile /\ P = position)).
      * rewrite in_app_iff. simpl. intros [Hin | [<- | []]]; [| lia].
        pose proof (Hlisted _ _ _ Hin). lia.
      * intros Hin. pose proof (Hlisted _ _ _ Hin). lia.
Qed.

Lemma session_in_order : registry_ok Cases.session.
Proof.
  unfold registry_ok. simpl. split; [| split; [| split]].
  - apply NoDup_ListNoDup. apply (bool_decide_unpack _). vm_compute. exact I.
  - apply NoDup_ListNoDup. apply (bool_decide_unpack _). vm_compute. exact I.
  - intros i r [E | [E | []]]; inversion E; subst; simpl; repeat split; lia.
  - intros r L P. unfold bucket, dfind. simpl.
    destruct (decide (L = 0%Z)); [| intros []]. simpl.
    destruct (decide (P = Some (5, 5)%Z)); [simpl; intros [<- | []]; lia |].
    destruct (decide (P = Some (5, 6)%Z)); [simpl; intros [<- | []]; lia | intros []].
Qed.

(** A ghost, which is no collider, spawned without a position, is listed
    under the key [None] all the same. *)
Lemma spawn_obj_files_and_lists_witness :
  exists s',
    spawn_obj Cases.session Cases.ghost_label None = Ok (s', Some 3)
    /\ bucket (collision_map (game s')) 0 None = [3]
    /\ GameObject.collider (GameObject.collision (objects (game s') 3)) = false
    /\ registry_ok s'.
Proof.
  destruct (proj2 (spawn_obj_files_and_lists Cases.session Cases.ghost_label None)
              GameObject.Collision_default eq_refl session_in_order)
    as (s' & Hs & Ho & _ & _ & _ & Hb & Hok).
  simpl in Ho. exists s'. split; [exact Hs |]. split; [rewrite Hb; reflexivity |].
  split; [rewrite Ho; reflexivity | exact Hok].
Defined.

(** X14.  [destroy_object] deletes the registry entry first: for an
    object whose id is not filed it raises [KeyError] and nothing has
    changed.  In a registry that is in order, destroying a filed object
    succeeds: its entry is gone and every other entry stays, one
    occurrence of it is taken out of the bucket of its layer and recorded
    position, the objects themselves are untouched, the registry is in
    order again, and destroying the same object a second time raises
    [KeyError]. *)
Theorem destroy_object_unfiles s r :
  (dget (GameObject.id (objects (game s) r)) (active_objects (game s)) = None ->
   destroy_object s r = Raise KeyError)
  /\ (registry_ok s -> In r (List.map snd (active_objects (game s))) ->
      exists s',
        destroy_object s r = Ok s'
        /\ dget (GameObject.id (objects (game s) r)) (active_objects (game s')) = None
        /\ (forall j r', In (j, r') (active_objects (game s'))
                         <-> In (j, r') (active_objects (game s)) /\ r' <> r)
        /\ collision_map (game s')
           = remove_obj (collision_map (game s))
               (GameObject.layer (GameObject.collision (objects (game s) r)))
               (GameObject.position (objects (game s) r)) r
        /\ objects (game s') = objects (game s)
        /\ next_game_obj_id s' = next_game_obj_id s
        /\ registry_ok s'
        /\ destroy_object s' r = Raise KeyError).
Proof.
  split.
  - intros Hnone. unfold destroy_object. rewrite (proj2 (ddel_none _ _) Hnone). reflexivity.
  - intros (Hkeys & Hrefs & Hfiled & Hlisted) Hr.
    apply in_map_iff in Hr. destruct Hr as [[i r0] [E Hin]]. simpl in E. subst r0.
    destruct (Hfiled _ _ Hin) as (Hid & _ & _).
    set (k := GameObject.id (objects (game s) r)) in *. subst i.
    destruct (ddel k (active_objects (game s))) as [rest|] eqn:Hdel.
    2: { apply ddel_none in Hdel. rewrite (In_dget _ _ _ Hkeys Hin) in Hdel. discriminate. }
    destruct (ddel_some _ _ _ Hdel) as (d1 & v & d2 & Hact & -> & Hk1).
    assert (Hv : v = r).
    { assert (Hin' : In (k, v) (active_objects (game s)))
        by (rewrite Hact; apply in_or_app; right; left; reflexivity).
      pose proof (In_dget _ _ _ Hkeys Hin) as H1.
      pose proof (In_dget _ _ _ Hkeys Hin') as H2. congruence. }
    subst v.
    assert (Hk : ~ In k (keys (d1 ++ d2))).
    { unfold keys in *. rewrite Hact, List.map_app in Hkeys. simpl in Hkeys.
      rewrite List.map_app. exact (NoDup_remove_2 _ _ _ Hkeys). }
    assert (Hr' : ~ In r (List.map snd (d1 ++ d2))).
    { rewrite Hact, List.map_app in Hrefs. simpl in Hrefs.
      rewrite List.map_app. exact (NoDup_remove_2 _ _ _ Hrefs). }
    assert (Hsub : forall j r', In (j, r') (d1 ++ d2) ->
                     In (j, r') (active_objects (game s))).
    { intros j r' H. rewrite Hact. apply in_app_or in H. apply in_or_app.
      destruct H; [left | right; right]; assumption. }
    assert (Hnone : dget k (d1 ++ d2) = None) by (apply dget_not_key, Hk).
    unfold destroy_object. fold k. rewrite Hdel.
    eexists. split; [reflexivity |]. simpl.
    split; [exact Hnone |]. split.
    { intros j r'. split.
      - intros H. split; [exact (Hsub _ _ H) |]. intros ->. apply Hr'.
        apply (in_map snd) in H. exact H.
      - intros [H Hne]. rewrite Hact in H. apply in_app_or in H. apply in_or_app.
        destruct H as [H | [H | H]]; [left; exact H | congruence | right; exact H]. }
    split; [reflexivity |]. split; [reflexivity |]. split; [reflexivity |]. split.
    { unfold registry_ok. simpl. split; [| split; [| split]].
      - unfold keys in *. rewrite Hact, List.map_app in Hkeys. simpl in Hkeys.
        rewrite List.map_app. exact (NoDup_remove_1 _ _ _ Hkeys).
      - rewrite Hact, List.map_app in Hrefs. simpl in Hrefs.
        rewrite List.map_app. exact (NoDup_remove_1 _ _ _ Hrefs).
      - intros j r' H. exact (Hfiled _ _ (Hsub _ _ H)).
      - intros r' L P. unfold remove_obj. rewrite bucket_at_bucket.
        destruct (decide (L = _ /\ P = _)) as [[-> ->]|]; [| apply Hlisted].
        destruct (in_dec Nat.eq_dec r _); [| apply Hlisted].
        intros H. apply In_list_remove in H. exact (Hlisted _ _ _ H). }
    unfold destroy_object. simpl. fold k. rewrite (proj2 (ddel_none _ _) Hnone). reflexivity.
Qed.

Lemma destroy_object_unfiles_witness :
  exists s',
    destroy_object Cases.session 2 = Ok s'
    /\ active_objects (game s') = [(1%Z, 1)]
    /\ bucket (collision_map (game s')) 0 (Some (5, 6)%Z) = []
    /\ destroy_object s' 2 = Raise KeyError.
Proof.
  destruct (proj2 (destroy_object_unfiles Cases.session 2) session_in_order)
    as (s' & Hs & _ & _ & Hm & _ & _ & _ & Htwice).
  - simpl. right. left. reflexivity.
  - exists s'. split; [exact Hs |].
    assert (E : Ok s' = destroy_object Cases.session 2) by (symmetry; exact Hs).
    vm_compute in E. inversion E; subst. clear E.
    split; [reflexivity |]. split; [reflexivity | exact Htwice].
Defined.

(** X15.  Spawning an object and destroying it again, in a registry that
    is in order, succeeds and gives back the registry and the content of
    every bucket; the other objects are untouched.  Only the id counter
    keeps its advance, so the id is not handed out again, and a report
    that names the destroyed object's id leads to no notification. *)
Theorem spawn_then_destroy s (label : String.string) (position : option pos)
    (profile : GameObject.Collision)
    (Hres : dget label (resources s) = Some profile) (Hok : registry_ok s) :
  exists s1 s2,
    spawn_obj s label position = Ok (s1, Some (next_ref s))
    /\ destroy_object s1 (next_ref s) = Ok s2
    /\ active_objects (game s2) = active_objects (game s)
    /\ (forall L P, bucket (collision_map (game s2)) L P
                    = bucket (collision_map (game s)) L P)
    /\ (forall r, r <> next_ref s -> objects (game s2) r = objects (game s) r)
    /\ next_game_obj_id s2 = (next_game_obj_id s + 1)%Z
    /\ (forall cs, notify (active_objects (game s2)) [(next_game_obj_id s, cs)] = []).
Proof.
  pose proof (next_id_is_free s Hok) as Hfree.
  unfold spawn_obj, new_game_object. rewrite Hres.
  eexists. eexists. split; [reflexivity |].
  unfold destroy_object. simpl. unfold heap_set_position, heap_store.
  destruct (decide (next_ref s = next_ref s)) as [_|Hn]; [| congruence]. simpl.
  rewrite (ddel_dset_fresh _ _ _ Hfree).
  split; [reflexivity |]. simpl. split; [reflexivity |]. split.
  - apply bucket_add_remove. intros Hin.
    destruct Hok as (_ & _ & _ & Hlisted). pose proof (Hlisted _ _ _ Hin). lia.
  - split; [intros r Hr; destruct (decide (r = next_ref s)); [contradiction | reflexivity] |].
    split; [reflexivity |]. intros cs. unfold notify. simpl. rewrite Hfree. reflexivity.
Qed.

Lemma spawn_then_destroy_witness :
  exists s1 s2,
    spawn_obj Cases.session Cases.wall_label (Some (5, 5)%Z) = Ok (s1, Some 3)
    /\ destroy_object s1 3 = Ok s2
    /\ active_objects (game s2) = [(1%Z, 1); (2%Z, 2)]
    /\ next_game_obj_id s2 = 4%Z.
Proof.
  destruct (spawn_then_destroy Cases.session Cases.wall_label (Some (5, 5)%Z)
              (GameObject.mkCollision true true 0 1 false) eq_refl session_in_order)
    as (s1 & s2 & H1 & H2 & H3 & _ & _ & H4 & _).
  exists s1, s2. repeat split; assumption.
Defined.

(** The dictionary built by the loop of [get_objects_at_position]. *)
Lemma collect_spec m (position : option pos) (layer : option Z) (L : Z) (l : list ref) :
  wf m = true ->
  forall es, (forall e, In e es -> In e (iter m)) ->
    dget L
      (fold_left
         (fun game_objs_dict e =>
            if layer_truthy layer && negb (bool_decide (Some (fst (fst e)) = layer))
            then game_objs_dict
            else if bool_decide (snd (fst e) = position)
            then dset (fst (fst e)) (snd e) game_objs_dict
            else game_objs_dict) es []) = Some l
    <-> (layer_truthy layer = true -> layer = Some L) /\ In (L, position, l) es.
Proof.
  intros Hwf es. induction es as [|[[L0 P0] l0] es IH] using rev_ind; intros Hsub.
  - simpl. split; [discriminate | intros [_ []]].
  - rewrite fold_left_app. simpl.
    assert (Hsub' : forall e, In e es -> In e (iter m))
      by (intros e He; apply Hsub, in_or_app; left; exact He).
    specialize (IH Hsub').
    assert (He0 : In (L0, P0, l0) (iter m))
      by (apply Hsub, in_or_app; right; left; reflexivity).
    rewrite in_app_iff. simpl.
    destruct (layer_truthy layer && negb (bool_decide (Some L0 = layer))) eqn:EL.
    + rewrite IH. apply andb_true_iff in EL. destruct EL as [Ht Hne].
      apply negb_true_iff, bool_decide_eq_false in Hne.
      split; [tauto |]. intros [Hl [H | [E | []]]]; [tauto |].
      inversion E; subst. exfalso. apply Hne. symmetry. exact (Hl Ht).
    + destruct (bool_decide (P0 = position)) eqn:EP.
      * apply bool_decide_eq_true in EP. subst P0. rewrite dget_dset.
        destruct (decide (L = L0)) as [->|HL].
        -- assert (Hlay : layer_truthy layer = true -> layer = Some L0).
           { intros Ht. rewrite Ht in EL. simpl in EL. apply negb_false_iff in EL.
             apply bool_decide_eq_true in EL. symmetry. exact EL. }
           split.
           ++ intros [= <-]. split; [exact Hlay | right; left; reflexivity].
           ++ intros [_ [H | [E | []]]]; [| inversion E; reflexivity].
              f_equal. rewrite <- (iter_bucket _ _ _ _ Hwf He0).
              apply (iter_bucket _ _ _ _ Hwf). exact (Hsub' _ H).
        -- rewrite IH. split; [tauto |]. intros [Hl [H | [E | []]]]; [tauto | congruence].
      * apply bool_decide_eq_false in EP. rewrite IH. split; [tauto |].
        intros [Hl [H | [E | []]]]; [tauto | congruence].
Qed.

(** X16.  On a map with one entry per key, [get_objects_at_position]
    returns, under each layer, the list of the bucket at the position on
    that layer, for exactly the layers that have such a bucket (an empty
    bucket included).  A layer argument other than 0 keeps that layer
    only; a layer argument of 0, like none, keeps them all. *)
Theorem get_objects_at_position_spec (g : TermGame) (position : option pos)
    (layer : option Z) (Hwf : wf (collision_map g) = true) :
  forall L l,
    dget L (get_objects_at_position g position layer) = Some l
    <-> (layer_truthy layer = true -> layer = Some L)
        /\ In (L, position, l) (iter (collision_map g)).
Proof.
  intros L l. unfold get_objects_at_position.
  apply (collect_spec (collision_map g) position layer L l Hwf). tauto.
Qed.

Lemma get_objects_at_position_spec_witness :
  dget 1%Z (get_objects_at_position
              (Scenario.game 3 3 Scenario.crowd Scenario.two_layers [] [])
              (Some (2, 2)%Z) (Some 0%Z))
  = Some [3; 4].
Proof.
  apply (get_objects_at_position_spec
           (Scenario.game 3 3 Scenario.crowd Scenario.two_layers [] [])
           (Some (2, 2)%Z) (Some 0%Z) eq_refl).
  split; [discriminate |]. left. reflexivity.
Defined.
End RegistryFacts.


(** ** The path search: termination and the shape of the path *)
Section PathWalk.
Import TermGame Notions.
Implicit Types (p q : pos) (st : search).

Lemma get_neighbors_cases p max_y max_x q :
  In q (get_neighbors p max_y max_x)
  <-> in_bounds max_y max_x q = true
      /\ (q = (fst p + 1, snd p) \/ q = (fst p - 1, snd p)
          \/ q = (fst p, snd p + 1) \/ q = (fst p, snd p - 1))%Z.
Proof.
  destruct p as [y x]. unfold get_neighbors. rewrite filter_In. simpl.
  assert (Hb : (if ((fst q <? 0) || (max_y <? fst q))%Z then false
                else if ((snd q <? 0) || (max_x <? snd q))%Z then false else true)
               = in_bounds max_y max_x q).
  { unfold in_bounds. destruct q as [qy qx]. simpl.
    destruct (qy <? 0)%Z eqn:E1, (max_y <? qy)%Z eqn:E2, (qx <? 0)%Z eqn:E3,
             (max_x <? qx)%Z eqn:E4; simpl;
      rewrite ?Z.ltb_lt, ?Z.ltb_ge in *;
      repeat match goal with
             | |- context [(?a <=? ?b)%Z] =>
                 let E := fresh in destruct (a <=? b)%Z eqn:E;
                 rewrite ?Z.leb_le, ?Z.leb_gt in E
             end; simpl; try reflexivity; lia. }
  rewrite Hb. intuition congruence.
Qed.

(** X17.  [get_neighbors] gives exactly the positions inside
    [[0, max_y] x [0, max_x]] that are one unit step away from the given
    position, which itself need not be inside. *)
Theorem get_neighbors_spec p max_y max_x q :
  In q (get_neighbors p max_y max_x)
  <-> in_bounds max_y max_x q = true /\ manhattan p q = 1%Z.
Proof.
  rewrite get_neighbors_cases. destruct p as [y x], q as [qy qx].
  unfold manhattan, Zabs_diff. simpl. split.
  - intros [Hb [E | [E | [E | E]]]]; inversion E; subst; split; try exact Hb; lia.
  - intros [Hb Hm]. split; [exact Hb |].
    assert (H : ((qy = y + 1 /\ qx = x) \/ (qy = y - 1 /\ qx = x)
                 \/ (qy = y /\ qx = x + 1) \/ (qy = y /\ qx = x - 1))%Z) by lia.
    destruct H as [[-> ->] | [[-> ->] | [[-> ->] | [-> ->]]]]; tauto.
Qed.

Lemma visit_traced max_y max_x start target current st nb st' :
  traced max_y max_x start st ->
  is_Some (cost_so_far st !! current) ->
  In nb (get_neighbors current max_y max_x) ->
  visit start target current st nb = Ok st' ->
  traced max_y max_x start st'
  /\ is_Some (cost_so_far st' !! current)
  /\ is_Some (cost_so_far st' !! nb)
  /\ (forall p, is_Some (cost_so_far st !! p) -> is_Some (cost_so_far st' !! p))
  /\ (forall p, In p (frontier st) -> In p (frontier st'))
  /\ (forall p, is_Some (cost_so_far st' !! p) ->
        is_Some (cost_so_far st !! p) \/ In p (frontier st')).
Proof.
  intros (Hs1 & Hs2 & Hfr & Hpred & Hdom) [c Hc] Hnb. unfold visit. rewrite Hc.
  set (inserted := mkSearch _ _ _).
  assert (Hins : (forall old, cost_so_far st !! nb = Some old -> c + 1 < old) ->
            traced max_y max_x start inserted
            /\ is_Some (cost_so_far inserted !! current)
            /\ is_Some (cost_so_far inserted !! nb)
            /\ (forall p, is_Some (cost_so_far st !! p) ->
                  is_Some (cost_so_far inserted !! p))
            /\ (forall p, In p (frontier st) -> In p (frontier inserted))
            /\ (forall p, is_Some (cost_so_far inserted !! p) ->
                  is_Some (cost_so_far st !! p) \/ In p (frontier inserted))).
  { intros Hcond. unfold traced, inserted. simpl.
    assert (Hns : nb <> start).
    { intros ->. specialize (Hcond _ Hs2). lia. }
    assert (Hnc : current <> nb).
    { intros ->. specialize (Hcond _ Hc). lia. }
    split; [| split; [| split; [| split; [| split]]]].
    - split; [rewrite lookup_insert_ne by congruence; exact Hs1 |].
      split; [rewrite lookup_insert_ne by congruence; exact Hs2 |].
      split; [| split].
      + intros p Hp. apply insert_is_Some. apply In_put in Hp.
        destruct Hp as [-> | Hp]; [left; reflexivity | right; exact (Hfr _ Hp)].
      + intros p c' Hp Hps. destruct (decide (p = nb)) as [->|Hpn].
        * rewrite lookup_insert_eq in Hp. inversion Hp; subst c'.
          exists current, c. rewrite lookup_insert_eq.
          rewrite lookup_insert_ne by congruence.
          split; [reflexivity |]. split; [exact Hc |]. split; [lia | exact Hnb].
        * rewrite lookup_insert_ne in Hp by congruence.
          destruct (Hpred _ _ Hp Hps) as (q & cq & Hq1 & Hq2 & Hq3 & Hq4).
          rewrite lookup_insert_ne by congruence.
          destruct (decide (q = nb)) as [->|Hqn].
          -- exists nb, (c + 1). rewrite lookup_insert_eq.
             split; [exact Hq1 |]. split; [reflexivity |].
             split; [specialize (Hcond _ Hq2); lia | exact Hq4].
          -- exists q, cq. rewrite lookup_insert_ne by congruence.
             split; [exact Hq1 |]. split; [exact Hq2 |]. split; [exact Hq3 | exact Hq4].
      + intros p Hp. destruct (decide (p = nb)) as [->|Hpn].
        * rewrite lookup_insert_eq in Hp. discriminate.
        * rewrite lookup_insert_ne in Hp by congruence.
          rewrite lookup_insert_ne by congruence. exact (Hdom _ Hp).
    - apply insert_is_Some. right. eexists. exact Hc.
    - apply insert_is_Some. left. reflexivity.
    - intros p Hp. apply insert_is_Some. right. exact Hp.
    - intros p Hp. apply In_put. right. exact Hp.
    - intros p Hp. apply insert_is_Some in Hp. destruct Hp as [-> | Hp]; [| left; exact Hp].
      right. apply In_put. left. reflexivity. }
  destruct (cost_so_far st !! nb) as [old|] eqn:Hold.
  - destruct (c + 1 <? old) eqn:Hlt; intros [= <-].
    + apply Hins. intros old' [= <-]. apply Nat.ltb_lt in Hlt. exact Hlt.
    + split; [exact (conj Hs1 (conj Hs2 (conj Hfr (conj Hpred Hdom)))) |].
      split; [eexists; exact Hc |]. split; [eexists; exact Hold |].
      split; [tauto |]. split; [tauto |]. intros p Hp. left. exact Hp.
  - intros [= <-]. apply Hins. intros old' [=].
Qed.

Lemma visit_all_traced max_y max_x start target current nbs :
  forall st st',
    traced max_y max_x start st ->
    is_Some (cost_so_far st !! current) ->
    (forall nb, In nb nbs -> In nb (get_neighbors current max_y max_x)) ->
    visit_all start target current st nbs = Ok st' ->
    traced max_y max_x start st'
    /\ (forall nb, In nb nbs -> is_Some (cost_so_far st' !! nb))
    /\ (forall p, is_Some (cost_so_far st !! p) -> is_Some (cost_so_far st' !! p))
    /\ (forall p, In p (frontier st) -> In p (frontier st'))
    /\ (forall p, is_Some (cost_so_far st' !! p) ->
          is_Some (cost_so_far st !! p) \/ In p (frontier st')).
Proof.
  induction nbs as [|nb nbs IH]; intros st st' Ht Hcur Hsub; simpl.
  - intros [= <-]. split; [exact Ht |]. split; [intros nb [] |].
    split; [tauto |]. split; [tauto |]. intros p Hp. left. exact Hp.
  - destruct (visit start target current st nb) as [st1|e] eqn:Hv; [| discriminate].
    intros Hall.
    destruct (visit_traced _ _ _ _ _ _ _ _ Ht Hcur (Hsub _ (or_introl eq_refl)) Hv)
      as (Ht1 & Hcur1 & Hnb1 & Hmono1 & Hfr1 & Hnew1).
    destruct (IH st1 st' Ht1 Hcur1 (fun q Hq => Hsub q (or_intror Hq)) Hall)
      as (Ht2 & Hnbs2 & Hmono2 & Hfr2 & Hnew2).
    split; [exact Ht2 |]. split; [| split; [| split]].
    + intros q [<- | Hq]; [apply Hmono2, Hnb1 | exact (Hnbs2 _ Hq)].
    + intros p Hp. apply Hmono2, Hmono1, Hp.
    + intros p Hp. apply Hfr2, Hfr1, Hp.
    + intros p Hp. destruct (Hnew2 _ Hp) as [H1 | H2]; [| right; exact H2].
      destruct (Hnew1 _ H1) as [H0 | H3]; [left; exact H0 | right; exact (Hfr2 _ H3)].
Qed.

(** What holds when the search loop has returned: the target has a cost,
    or the frontier ran empty with every recorded position expanded. *)
Lemma explore_traced max_y max_x start target fuel :
  forall st st',
    traced max_y max_x start st -> closed max_y max_x st ->
    explore fuel max_y max_x start target st = Some (Ok st') ->
    traced max_y max_x start st'
    /\ (is_Some (cost_so_far st' !! target)
        \/ (frontier st' = [] /\ closed max_y max_x st')).
Proof.
  induction fuel as [|fuel IH]; intros st st' Ht Hcl; simpl;
    destruct (frontier st) as [|current rest] eqn:Hfr; simpl; try discriminate.
  - intros [= <-]. split; [exact Ht |]. right. split; assumption.
  - intros [= <-]. split; [exact Ht |]. right. split; assumption.
  - set (st1 := mkSearch rest (came_from st) (cost_so_far st)).
    assert (Ht1 : traced max_y max_x start st1).
    { destruct Ht as (H1 & H2 & H3 & H4 & H5). repeat split; try assumption.
      intros p Hp. apply H3. rewrite Hfr. right. exact Hp. }
    assert (Hcur : is_Some (cost_so_far st1 !! current)).
    { destruct Ht as (_ & _ & H3 & _). apply H3. rewrite Hfr. left. reflexivity. }
    destruct (decide (current = target)) as [->|Hne].
    + intros [= <-]. split; [exact Ht1 |]. left. exact Hcur.
    + destruct (visit_all start target current st1 (get_neighbors current max_y max_x))
        as [st2|e] eqn:Hv; [| discriminate].
      destruct (visit_all_traced _ _ _ _ _ _ _ _ Ht1 Hcur (fun nb H => H) Hv)
        as (Ht2 & Hnbs & Hmono & Hfront & Hnew).
      apply IH; [exact Ht2 |].
      intros p Hp Hnp nb Hnb. destruct (decide (p = current)) as [->|Hpc].
      * exact (Hnbs _ Hnb).
      * destruct (Hnew _ Hp) as [Hold | Hq]; [| contradiction].
        apply Hmono. apply (Hcl p Hold); [| exact Hnb].
        rewrite Hfr. intros [E | Hin]; [congruence |]. apply Hnp, Hfront. exact Hin.
Qed.

Lemma explore_mono max_y max_x start target fuel :
  forall st r,
    explore fuel max_y max_x start target st = Some r ->
    forall fuel', fuel <= fuel' -> explore fuel' max_y max_x start target st = Some r.
Proof.
  induction fuel as [|fuel IH]; intros st r; simpl;
    destruct (frontier st) as [|current rest] eqn:Hfr; simpl; try discriminate;
    intros Hr fuel' Hle.
  - destruct fuel'; simpl; rewrite Hfr; exact Hr.
  - destruct fuel'; simpl; rewrite Hfr; exact Hr.
  - destruct fuel' as [|fuel']; [lia |]. simpl. rewrite Hfr. simpl.
    destruct (decide (current = target)); [exact Hr |].
    destruct (visit_all _ _ _ _ _) as [st2|e]; [| exact Hr].
    apply (IH _ _ Hr). lia.
Qed.

Lemma in_bounds_iff max_y max_x (y x : Z) :
  in_bounds max_y max_x (y, x) = true <-> (0 <= y <= max_y /\ 0 <= x <= max_x)%Z.
Proof. unfold in_bounds. simpl. rewrite !andb_true_iff, !Z.leb_le. tauto. Qed.

(** A set of positions that holds an in-bounds position and the
    neighbors of each of its members holds the whole grid. *)
Lemma closed_reaches max_y max_x (P : pos -> Prop) :
  (forall p, P p -> forall nb, In nb (get_neighbors p max_y max_x) -> P nb) ->
  forall s, P s -> in_bounds max_y max_x s = true ->
  forall t, in_bounds max_y max_x t = true -> P t.
Proof.
  intros Hcl.
  assert (Hstep : forall y x y' x',
             P (y, x) -> in_bounds max_y max_x (y', x') = true ->
             ((y' = y + 1 /\ x' = x) \/ (y' = y - 1 /\ x' = x)
              \/ (y' = y /\ x' = x + 1) \/ (y' = y /\ x' = x - 1))%Z ->
             P (y', x')).
  { intros y x y' x' HP Hb Hc. apply (Hcl (y, x) HP). apply get_neighbors_cases.
    split; [exact Hb |]. simpl.
    destruct Hc as [[-> ->] | [[-> ->] | [[-> ->] | [-> ->]]]]; tauto. }
  assert (Hup : forall k y x, P (y, x) -> (0 <= y)%Z -> (y + Z.of_nat k <= max_y)%Z ->
                  (0 <= x <= max_x)%Z -> P ((y + Z.of_nat k)%Z, x)).
  { induction k as [|k IH]; intros y x HP H0 Hm Hx.
    - replace (y + Z.of_nat 0)%Z with y by lia. exact HP.
    - apply (Hstep (y + Z.of_nat k)%Z x); [apply IH; try assumption; lia | | lia].
      apply in_bounds_iff. lia. }
  assert (Hdown : forall k y x, P (y, x) -> (y <= max_y)%Z -> (0 <= y - Z.of_nat k)%Z ->
                    (0 <= x <= max_x)%Z -> P ((y - Z.of_nat k)%Z, x)).
  { induction k as [|k IH]; intros y x HP H0 Hm Hx.
    - replace (y - Z.of_nat 0)%Z with y by lia. exact HP.
    - apply (Hstep (y - Z.of_nat k)%Z x); [apply IH; try assumption; lia | | lia].
      apply in_bounds_iff. lia. }
  assert (Hright : forall k y x, P (y, x) -> (0 <= x)%Z -> (x + Z.of_nat k <= max_x)%Z ->
                     (0 <= y <= max_y)%Z -> P (y, (x + Z.of_nat k)%Z)).
  { induction k as [|k IH]; intros y x HP H0 Hm Hy.
    - replace (x + Z.of_nat 0)%Z with x by lia. exact HP.
    - apply (Hstep y (x + Z.of_nat k)%Z); [apply IH; try assumption; lia | | lia].
      apply in_bounds_iff. lia. }
  assert (Hleft : forall k y x, P (y, x) -> (x <= max_x)%Z -> (0 <= x - Z.of_nat k)%Z ->
                    (0 <= y <= max_y)%Z -> P (y, (x - Z.of_nat k)%Z)).
  { induction k as [|k IH]; intros y x HP H0 Hm Hy.
    - replace (x - Z.of_nat 0)%Z with x by lia. exact HP.
    - apply (Hstep y (x - Z.of_nat k)%Z); [apply IH; try assumption; lia | | lia].
      apply in_bounds_iff. lia. }
  intros [sy sx] HP Hs [ty tx] Ht. apply in_bounds_iff in Hs, Ht.
  assert (Hcol : P (ty, sx)).
  { destruct (Z.le_gt_cases sy ty).
    - replace ty with (sy + Z.of_nat (Z.to_nat (ty - sy)))%Z by lia.
      apply Hup; try assumption; lia.
    - replace ty with (sy - Z.of_nat (Z.to_nat (sy - ty)))%Z by lia.
      apply Hdown; try assumption; lia. }
  destruct (Z.le_gt_cases sx tx).
  - replace tx with (sx + Z.of_nat (Z.to_nat (tx - sx)))%Z by lia.
    apply Hright; try assumption; lia.
  - replace tx with (sx - Z.of_nat (Z.to_nat (sx - tx)))%Z by lia.
    apply Hleft; try assumption; lia.
Qed.

Lemma last_cons (a x : pos) (l : list pos) : List.last (x :: l) a = List.last l x.
Proof.
  revert a x. induction l as [|y l IH]; intros a x; [reflexivity |].
  change (List.last (x :: y :: l) a) with (List.last (y :: l) a).
  rewrite (IH a y), (IH x y). reflexivity.
Qed.

Lemma walk_snoc max_y max_x a (l : list pos) p :
  walk max_y max_x a l -> In p (get_neighbors (List.last l a) max_y max_x) ->
  walk max_y max_x a (l ++ [p]).
Proof.
  revert a. induction l as [|x l IH]; intros a; simpl.
  - intros _ Hin. split; [exact Hin | exact I].
  - intros [Hx Hw] Hin. split; [exact Hx |]. apply IH; [exact Hw |].
    change (match l with [] => x | _ :: _ => List.last l a end)
      with (List.last (x :: l) a) in Hin.
    rewrite last_cons in Hin. exact Hin.
Qed.

Lemma walk_facts max_y max_x (l : list pos) :
  forall a,
    walk max_y max_x a l ->
    Forall (fun p => in_bounds max_y max_x p = true) l
    /\ (manhattan a (List.last l a) <= Z.of_nat (length l))%Z.
Proof.
  induction l as [|x l IH]; intros a; simpl.
  - intros _. split; [constructor |]. unfold manhattan, Zabs_diff. lia.
  - intros [Hx Hw]. apply get_neighbors_cases in Hx. destruct Hx as [Hb Hc].
    destruct (IH x Hw) as [Hall Hlen]. split; [constructor; assumption |].
    change (match l with [] => x | _ :: _ => List.last l a end) with (List.last (x :: l) a).
    rewrite last_cons. destruct a as [ay ax], x as [xy xx].
    destruct (List.last l (xy, xx)) as [ly lx]. unfold manhattan, Zabs_diff in *. simpl in *.
    destruct Hc as [E | [E | [E | E]]]; inversion E; subst; lia.
Qed.

(** Following [came_from] back from a position that has a cost. *)
Lemma trace_spec max_y max_x start st :
  traced max_y max_x start st ->
  forall c p, cost_so_far st !! p = Some c ->
    exists w,
      (forall path fuel, c <= fuel ->
         trace fuel (came_from st) start p path = Some (Ok (path ++ w)))
      /\ walk max_y max_x start (rev w) /\ List.last (rev w) start = p.
Proof.
  intros (Hs1 & Hs2 & Hfr & Hpred & Hdom) c.
  induction c as [c IH] using lt_wf_ind. intros p Hp.
  destruct (decide (p = start)) as [->|Hne].
  - exists []. split; [| split; [exact I | reflexivity]].
    intros path fuel _. rewrite app_nil_r.
    destruct fuel; simpl; destruct (decide (start = start)); congruence.
  - destruct (Hpred _ _ Hp Hne) as (q & cq & Hq1 & Hq2 & Hq3 & Hq4).
    destruct (IH cq Hq3 q Hq2) as (w & Hrun & Hw & Hlast).
    exists (p :: w). split; [| split].
    + intros path fuel Hfuel. destruct fuel as [|fuel]; [lia |]. simpl.
      destruct (decide (p = start)); [contradiction |]. rewrite Hq1.
      rewrite (Hrun (path ++ [p]) fuel) by lia. rewrite <- app_assoc. reflexivity.
    + simpl. apply walk_snoc; [exact Hw |]. rewrite Hlast. exact Hq4.
    + simpl. apply List.last_last.
Qed.

Lemma search_result max_y max_x start target :
  exists n st',
    (forall fuel, n <= fuel ->
       explore fuel max_y max_x start target
         (mkSearch (put start 0 []) {[start := None]} {[start := 0]}) = Some (Ok st'))
    /\ traced max_y max_x start st'
    /\ (is_Some (cost_so_far st' !! target)
        \/ (frontier st' = [] /\ closed max_y max_x st')).
Proof.
  set (st0 := mkSearch (put start 0 []) {[start := None]} {[start := 0]}).
  assert (Hok0 : search_ok (reachable_keys max_y max_x start) st0).
  { unfold st0. split; [| split]; simpl.
    - intros p [<- | []]. rewrite lookup_singleton_eq. eexists. reflexivity.
    - intros p [v Hp]. apply lookup_singleton_Some in Hp. left. tauto.
    - intros p [v Hp]. apply lookup_singleton_Some in Hp. left. tauto. }
  assert (Ht0 : traced max_y max_x start st0).
  { unfold traced, st0. simpl. rewrite !lookup_singleton_eq.
    split; [reflexivity |]. split; [reflexivity |]. split; [| split].
    - intros p [<- | []]. rewrite lookup_singleton_eq. eexists. reflexivity.
    - intros p c Hp Hne. apply lookup_singleton_Some in Hp. destruct Hp as [E _].
      congruence.
    - intros p Hp. apply lookup_singleton_None in Hp.
      apply lookup_singleton_None. exact Hp. }
  assert (Hc0 : closed max_y max_x st0).
  { intros p [v Hp] Hn. exfalso. apply Hn. unfold st0 in *. simpl in *.
    apply lookup_singleton_Some in Hp. left. tauto. }
  destruct (explore_total max_y max_x start target _ _ st0 Hok0 eq_refl eq_refl) as [n Hn].
  destruct (Hn n (Nat.le_refl _)) as (st' & Hrun & _).
  exists n, st'. split.
  - intros fuel Hfuel. exact (explore_mono _ _ _ _ _ _ _ Hrun fuel Hfuel).
  - exact (explore_traced _ _ _ _ _ _ _ Ht0 Hc0 Hrun).
Qed.

Lemma pathfind_from_traced max_y max_x start target n st' c :
  (forall fuel, n <= fuel ->
     explore fuel max_y max_x start target
       (mkSearch (put start 0 []) {[start := None]} {[start := 0]}) = Some (Ok st')) ->
  traced max_y max_x start st' ->
  cost_so_far st' !! target = Some c ->
  exists path,
    (forall fuel, n + c <= fuel ->
       pathfind_from fuel max_y max_x start target = Some (Ok path))
    /\ walk max_y max_x start path /\ List.last path start = target.
Proof.
  intros Hrun Ht Hc. destruct (trace_spec _ _ _ _ Ht c target Hc) as (w & Htr & Hw & Hl).
  exists (rev w). split; [| split; assumption].
  intros fuel Hfuel. unfold pathfind_from. rewrite (Hrun fuel) by lia.
  rewrite (Htr [] fuel) by lia. reflexivity.
Qed.

(** X18.  [pathfind] always ends, with an outcome that no longer depends
    on the fuel: either the [KeyError] of a target that was never traced,
    or a path.  A path it returns leads from the start to the target: its
    first position is a neighbor of the start, each further one a
    neighbor of the one before, and the last one is the target (the path
    is empty only when the target is the start). *)
Theorem pathfind_ends max_y max_x start target :
  exists n outcome,
    (forall fuel, n <= fuel ->
       pathfind_from fuel max_y max_x start target = Some outcome)
    /\ (outcome = Raise KeyError
        \/ exists path,
             outcome = Ok path
             /\ walk max_y max_x start path /\ List.last path start = target).
Proof.
  destruct (search_result max_y max_x start target) as (n & st' & Hrun & Ht & _).
  destruct (cost_so_far st' !! target) as [c|] eqn:Hc.
  - destruct (pathfind_from_traced _ _ _ _ _ _ _ Hrun Ht Hc) as (path & Hp & Hw).
    exists (n + c), (Ok path). split; [exact Hp |]. right. exists path. tauto.
  - exists (S n), (Raise KeyError). split; [| left; reflexivity].
    intros fuel Hfuel. unfold pathfind_from. rewrite (Hrun fuel) by lia.
    destruct Ht as (_ & Hs2 & _ & _ & Hdom).
    destruct fuel as [|fuel]; [lia |]. simpl.
    destruct (decide (target = start)) as [->|_]; [congruence |].
    rewrite (Hdom _ Hc). reflexivity.
Qed.

(** X19.  With the start and the target both inside the grid, [pathfind]
    returns a path: unit steps through positions of the grid, from a
    neighbor of the start to the target, at least as many of them as the
    Manhattan distance between start and target. *)
Theorem pathfind_reaches max_y max_x start target
    (Hs : in_bounds max_y max_x start = true)
    (Ht : in_bounds max_y max_x target = true) :
  exists n path,
    (forall fuel, n <= fuel ->
       pathfind_from fuel max_y max_x start target = Some (Ok path))
    /\ walk max_y max_x start path
    /\ List.last path start = target
    /\ Forall (fun p => in_bounds max_y max_x p = true) path
    /\ (manhattan start target <= Z.of_nat (length path))%Z.
Proof.
  destruct (search_result max_y max_x start target) as (n & st' & Hrun & Htr & Hend).
  assert (Hcost : is_Some (cost_so_far st' !! target)).
  { destruct Hend as [H | [Hfr Hcl]]; [exact H |].
    apply (closed_reaches max_y max_x (fun p => is_Some (cost_so_far st' !! p)))
      with (s := start); try assumption.
    - intros p Hp nb Hnb. apply (Hcl p Hp); [rewrite Hfr; intros [] | exact Hnb].
    - destruct Htr as (_ & Hs2 & _). eexists. exact Hs2. }
  destruct Hcost as [c Hc].
  destruct (pathfind_from_traced _ _ _ _ _ _ _ Hrun Htr Hc) as (path & Hp & Hw & Hl).
  exists (n + c), path. split; [exact Hp |]. split; [exact Hw |]. split; [exact Hl |].
  destruct (walk_facts _ _ _ _ Hw) as [Hall Hlen]. rewrite Hl in Hlen. tauto.
Qed.

Lemma pathfind_reaches_witness :
  exists n path,
    (forall fuel, n <= fuel -> pathfind_from fuel 1 3 (1, 3)%Z (1, 0)%Z = Some (Ok path))
    /\ walk 1 3 (1, 3)%Z path /\ List.last path (1, 3)%Z = (1, 0)%Z.
Proof.
  destruct (pathfind_reaches 1 3 (1, 3)%Z (1, 0)%Z eq_refl eq_refl)
    as (n & path & H1 & H2 & H3 & _).
  exists n, path. repeat split; assumption.
Defined.
End PathWalk.

Section EntityCalls.
Import CollisionMap TermGame Notions.

Lemma firstn_app_firstn {A} (a l : list A) :
  forall n m, n <= m -> firstn n (a ++ firstn m l) = firstn n (a ++ l).
Proof.
  induction a as [|x a IH]; intros n m Hnm; simpl.
  - rewrite firstn_firstn. f_equal. lia.
  - destruct n as [|n]; [reflexivity |]. simpl. f_equal. apply IH. lia.
Qed.

(** X20.  [on_rigidbody_collision] writes one entry per collider through
    [log]; whatever the number of colliders, the log afterwards is the
    first 15 entries of the new ones, the latest in front, followed by
    the old ones.  So the log never holds more than 15 entries, and the
    game itself is not touched. *)
Theorem on_rigidbody_collision_log render message (s : Registry.Session)
    (self : ref) (colliders : list ref) :
  let s' := Entity.on_rigidbody_collision render message s self colliders in
  Registry.game s' = Registry.game s
  /\ (colliders <> [] ->
      Registry.debug_log s'
      = firstn 15
          (rev (List.map (fun collider =>
                            render (now (Registry.game s)) self (message self collider))
                         colliders)
           ++ Registry.debug_log s)
      /\ length (Registry.debug_log s') <= 15).
Proof.
  unfold Entity.on_rigidbody_collision.
  assert (H : forall cs s0,
             let s' := fold_left
                         (fun s collider => Registry.log render s self (message self collider))
                         cs s0 in
             Registry.game s' = Registry.game s0
             /\ firstn 15 (Registry.debug_log s')
                = firstn 15
                    (rev (List.map (fun collider =>
                                      render (now (Registry.game s0)) self
                                             (message self collider)) cs)
                     ++ Registry.debug_log s0)
             /\ (cs <> [] -> length (Registry.debug_log s') <= 15)).
  { induction cs as [|c cs IH]; intros s0; simpl.
    - split; [reflexivity |]. split; [reflexivity | congruence].
    - destruct (IH (Registry.log render s0 self (message self c))) as (Hg & Hl & Hn).
      split; [rewrite Hg; reflexivity |]. split.
      + rewrite Hl. unfold Registry.log, Registry.set_debug_log.
        cbn [Registry.debug_log Registry.game List.map rev]. rewrite <- app_assoc.
        apply (firstn_app_firstn _ (_ :: Registry.debug_log s0) 15 15). lia.
      + intros _. destruct cs as [|c' cs]; [| apply Hn; congruence].
        unfold Registry.log, Registry.set_debug_log.
        cbn [fold_left Registry.debug_log]. apply firstn_le_length. }
  destruct (H colliders s) as (Hg & Hl & Hn). simpl. split; [exact Hg |].
  intros Hne. split; [| exact (Hn Hne)].
  rewrite <- Hl. symmetry. apply firstn_all2. exact (Hn Hne).
Qed.

Lemma on_rigidbody_collision_log_witness :
  Registry.debug_log
    (Entity.on_rigidbody_collision (fun _ _ m => m) (fun _ _ => Cases.wall_label)
       Cases.session 1 [2]) = [Cases.wall_label].
Proof.
  destruct (on_rigidbody_collision_log (fun _ _ m => m) (fun _ _ => Cases.wall_label)
              Cases.session 1 [2]) as [_ H].
  destruct H as [H _]; [discriminate |]. exact H.
Defined.

(** X21.  Take a game with an empty queue whose map has one entry per key
    and agrees with the recorded positions (every listed object is listed
    once, in the bucket of its own layer and recorded position), and an
    object with a position whose relative move, once applied to the map,
    leaves no bucket of the whole map with two rigidbodies.  Then
    [move_rel] logs nothing and queues the one request, and the next
    move phase carries the move out: it sends no notification, the object ends at its position plus
    the delta, and every other object is exactly as before. *)
Theorem relative_move_is_granted render message (s : Registry.Session)
    (self : ref) (screen_delta : pos) (y x : Z)
    (Hq : move_requests (Registry.game s) = [])
    (Hwf : wf (collision_map (Registry.game s)) = true)
    (Hcons : consistent (objects (Registry.game s)) (collision_map (Registry.game s)) = true)
    (Hpos : GameObject.position (objects (Registry.game s) self) = Some (y, x))
    (Hcalm : calm (objects (Registry.game s))
               (apply_request (objects (Registry.game s)) (collision_map (Registry.game s))
                  (self, Some (y + fst screen_delta, x + snd screen_delta)%Z)) = true) :
  let s' := Entity.move_rel render message s self screen_delta in
  Registry.debug_log s' = Registry.debug_log s
  /\ move_requests (Registry.game s')
     = [(self, Some (y + fst screen_delta, x + snd screen_delta)%Z)]
  /\ forall fuel, 1 <= fuel ->
       exists g',
         move_objects fuel (Registry.game s') = Some (g', [])
         /\ GameObject.position (objects g' self)
            = Some (y + fst screen_delta, x + snd screen_delta)%Z
         /\ (forall o, o <> self -> objects g' o = objects (Registry.game s) o).
Proof.
  unfold Entity.move_rel. rewrite Hpos. simpl. split; [reflexivity |].
  split; [rewrite Hq; reflexivity |].
  intros fuel Hfuel.
  set (rq := (self, Some (y + fst screen_delta, x + snd screen_delta)%Z)).
  destruct (moves_granted (move (Registry.game s) self (snd rq))) with (fuel := fuel)
    as (g' & Hm & _ & Hp & Ho).
  - exact Hwf.
  - exact Hcons.
  - unfold move. simpl. rewrite Hq. simpl. constructor; [intros [] | constructor].
  - unfold move. simpl. rewrite Hq. simpl. exact Hcalm.
  - unfold move. simpl. rewrite Hq. simpl. exact Hfuel.
  - exists g'. split; [exact Hm |]. split.
    + apply Hp. unfold move. simpl. rewrite Hq. left. reflexivity.
    + intros o Hne. rewrite Ho; [reflexivity |].
      unfold move. simpl. rewrite Hq. simpl. intros [E | []]. congruence.
Qed.

Lemma relative_move_is_granted_witness :
  exists g',
    move_objects 1
      (Registry.game (Entity.move_rel (fun _ _ m => m) (fun _ => Cases.wall_label)
                        Cases.session 1 (-1, 0)%Z)) = Some (g', [])
    /\ GameObject.position (objects g' 1) = Some (4, 5)%Z.
Proof.
  destruct (relative_move_is_granted (fun _ _ m => m) (fun _ => Cases.wall_label)
              Cases.session 1 (-1, 0)%Z 5 5 eq_refl eq_refl eq_refl eq_refl eq_refl)
    as (_ & _ & H).
  destruct (H 1 (Nat.le_refl 1)) as (g' & Hm & Hp & _).
  exists g'. split; [exact Hm | exact Hp].
Defined.

End EntityCalls.
